(** * A shallow embedding of [bf_SATsolver.cpp]

    The program reads a CNF formula in DIMACS format, runs a recursive
    DPLL search (conflict check, one pass of unit propagation, one pass of
    pure-literal elimination, branching) and prints the verdict.

    Conventions of the embedding.
    - [int] values are integers of [Z].  The search computes [numVars + 1],
      [var++] and [nextVar + 1] on [int]; a signed overflow is undefined
      behaviour in the source and is the outcome [Undefined] here (it can
      happen only when [numVars] is [2^31 - 1]).  The parser keeps what it
      reads inside [int].
    - [std::vector<T>] is [list T]; [operator[]] outside the bounds of the
      vector is undefined behaviour in the source and is the outcome
      [Undefined] here, so that every theorem about a returned value also
      says that no access left the vector.
    - The assignment vector is passed by reference in the source; here every
      function that writes to it returns the vector it leaves behind. *)

From Stdlib Require Import String Ascii Decimal DecimalString DecimalPos.
From Stdlib Require Import ZArith List Bool Lia Btauto Sorted.
Import ListNotations.
Open Scope Z_scope.

(** ** Outcomes of a run *)

Inductive result (A : Type) : Type :=
| Ok (a : A)             (* the call returned [a] *)
| Undefined              (* undefined behaviour: an access outside a vector,
                            a signed overflow *)
| OutOfFuel              (* recursion deeper than the fuel given to the model *)
| Throw (what : string). (* a C++ exception *)

Arguments Ok {A} a.
Arguments Undefined {A}.
Arguments OutOfFuel {A}.
Arguments Throw {A} what.

Definition bind {A B : Type} (r : result A) (k : A -> result B) : result B :=
  match r with
  | Ok a => k a
  | Undefined => Undefined
  | OutOfFuel => OutOfFuel
  | Throw w => Throw w
  end.

Notation "x <- e ;; k" := (bind e (fun x => k))
  (at level 61, e at next level, right associativity).
Notation "' pat <- e ;; k" := (bind e (fun pat => k))
  (at level 61, pat pattern, e at next level, right associativity).

(** ** [int] *)

Definition INT_MAX : Z := 2147483647.
Definition INT_MIN : Z := -2147483648.

(** [x + 1] and [x++] on an [int]. *)
Definition int_succ (x : Z) : result Z :=
  if x <? INT_MAX then Ok (x + 1) else Undefined.

(** ** Vectors *)

Definition size {A : Type} (v : list A) : Z := Z.of_nat (length v).

Fixpoint upd {A : Type} (n : nat) (x : A) (v : list A) : list A :=
  match v with
  | [] => []
  | h :: t => match n with
              | O => x :: t
              | S n' => h :: upd n' x t
              end
  end.

(** [v[i]] as an rvalue. *)
Definition at_ {A : Type} (v : list A) (i : Z) : result A :=
  if (0 <=? i) && (i <? size v) then
    match nth_error v (Z.to_nat i) with
    | Some x => Ok x
    | None => Undefined
    end
  else Undefined.

(** [v[i] = x]. *)
Definition store {A : Type} (v : list A) (i : Z) (x : A) : result (list A) :=
  if (0 <=? i) && (i <? size v) then Ok (upd (Z.to_nat i) x v) else Undefined.

(** [vector<T> v(n, x)]: a negative [int] count converts to a [size_t] beyond
    [max_size()] and the constructor throws. *)
Definition vector_new {A : Type} (n : Z) (x : A) : result (list A) :=
  if n <? 0 then Throw "cannot create std::vector larger than max_size()"
  else Ok (repeat x (Z.to_nat n)).

(** ** The problem *)

Record SATproblem : Type := mkSATproblem {
  numVars : Z;
  clauses : list (list Z)
}.

(** The test [(lit > 0 && value > 0) || (lit < 0 && value < 0)]. *)
Definition lit_satisfied (lit value : Z) : bool :=
  ((lit >? 0) && (value >? 0)) || ((lit <? 0) && (value <? 0)).

(** ** checkConflict *)

(** The inner loop over one clause; returns [(satisfied, undecided)]. *)
Fixpoint checkConflict_clause (assignment clause : list Z) : result (bool * bool) :=
  match clause with
  | [] => Ok (false, false)
  | lit :: rest =>
      let var := Z.abs lit in
      if var >? size assignment then Ok (false, true)
      else
        value <- at_ assignment (var - 1) ;;
        if value =? 0 then Ok (false, true)
        else if lit_satisfied lit value then Ok (true, false)
        else checkConflict_clause assignment rest
  end.

Fixpoint checkConflict_clauses (cls : list (list Z)) (assignment : list Z)
  : result bool :=
  match cls with
  | [] => Ok false
  | clause :: rest =>
      '(satisfied, undecided) <- checkConflict_clause assignment clause ;;
      if negb satisfied && negb undecided then Ok true
      else checkConflict_clauses rest assignment
  end.

Definition checkConflict (problem : SATproblem) (assignment : list Z) : result bool :=
  checkConflict_clauses (clauses problem) assignment.

(** ** findUnitClauses *)

(** The inner loop over one clause; returns [(unassignedLit, satisfied)]. *)
Fixpoint findUnit_clause (assignment clause : list Z) (unassignedLit : Z)
  : result (Z * bool) :=
  match clause with
  | [] => Ok (unassignedLit, false)
  | lit :: rest =>
      let var := Z.abs lit in
      value <- at_ assignment (var - 1) ;;
      if lit_satisfied lit value then Ok (unassignedLit, true)
      else if value =? 0 then
        if negb (unassignedLit =? 0) then Ok (0, false)
        else findUnit_clause assignment rest lit
      else findUnit_clause assignment rest unassignedLit
  end.

Fixpoint findUnit_clauses (cls : list (list Z)) (assignment unitLiterals : list Z)
  : result (list Z) :=
  match cls with
  | [] => Ok unitLiterals
  | clause :: rest =>
      '(unassignedLit, satisfied) <- findUnit_clause assignment clause 0 ;;
      if negb satisfied && negb (unassignedLit =? 0)
      then findUnit_clauses rest assignment (unitLiterals ++ [unassignedLit])
      else findUnit_clauses rest assignment unitLiterals
  end.

Definition findUnitClauses (problem : SATproblem) (assignment : list Z)
  : result (list Z) :=
  findUnit_clauses (clauses problem) assignment [].

(** ** findPureLiterals *)

(** First inner loop: is some literal of the clause satisfied? *)
Fixpoint pure_satisfied (assignment clause : list Z) : result bool :=
  match clause with
  | [] => Ok false
  | lit :: rest =>
      let var := Z.abs lit in
      value <- at_ assignment (var - 1) ;;
      if lit_satisfied lit value then Ok true
      else pure_satisfied assignment rest
  end.

(** Second inner loop: record the polarity of every unassigned literal. *)
Fixpoint pure_mark (assignment clause : list Z) (posAppears negAppears : list bool)
  : result (list bool * list bool) :=
  match clause with
  | [] => Ok (posAppears, negAppears)
  | lit :: rest =>
      let var := Z.abs lit in
      value <- at_ assignment (var - 1) ;;
      if value =? 0 then
        if lit >? 0 then
          posAppears' <- store posAppears var true ;;
          pure_mark assignment rest posAppears' negAppears
        else
          negAppears' <- store negAppears var true ;;
          pure_mark assignment rest posAppears negAppears'
      else pure_mark assignment rest posAppears negAppears
  end.

Fixpoint pure_clauses (cls : list (list Z)) (assignment : list Z)
  (posAppears negAppears : list bool) : result (list bool * list bool) :=
  match cls with
  | [] => Ok (posAppears, negAppears)
  | clause :: rest =>
      satisfied <- pure_satisfied assignment clause ;;
      if negb satisfied then
        '(posAppears', negAppears') <-
          pure_mark assignment clause posAppears negAppears ;;
        pure_clauses rest assignment posAppears' negAppears'
      else pure_clauses rest assignment posAppears negAppears
  end.

(** The loop [for (var = 1; var <= numVars; var++)], [n] iterations left. *)
Fixpoint pure_collect (n : nat) (var : Z) (assignment : list Z)
  (posAppears negAppears : list bool) (pureLiterals : list Z) : result (list Z) :=
  match n with
  | O => Ok pureLiterals
  | S n' =>
      value <- at_ assignment (var - 1) ;;
      if value =? 0 then
        pos <- at_ posAppears var ;;
        if pos then
          neg <- at_ negAppears var ;;
          if negb neg
          then var' <- int_succ var ;;
               pure_collect n' var' assignment posAppears negAppears
                 (pureLiterals ++ [var])
          else var' <- int_succ var ;;
               pure_collect n' var' assignment posAppears negAppears
                 pureLiterals
        else
          neg <- at_ negAppears var ;;
          if neg
          then var' <- int_succ var ;;
               pure_collect n' var' assignment posAppears negAppears
                 (pureLiterals ++ [- var])
          else var' <- int_succ var ;;
               pure_collect n' var' assignment posAppears negAppears
                 pureLiterals
      else var' <- int_succ var ;;
           pure_collect n' var' assignment posAppears negAppears pureLiterals
  end.

Definition findPureLiterals (problem : SATproblem) (assignment : list Z)
  : result (list Z) :=
  n <- int_succ (numVars problem) ;;
  posAppears <- vector_new n false ;;
  n' <- int_succ (numVars problem) ;;
  negAppears <- vector_new n' false ;;
  '(posAppears', negAppears') <-
    pure_clauses (clauses problem) assignment posAppears negAppears ;;
  pure_collect (Z.to_nat (numVars problem)) 1 assignment posAppears' negAppears' [].

(** ** solve *)

(** [for (auto& p : saved) assignment[p.first] = p.second;] *)
Fixpoint undo (saved : list (Z * Z)) (assignment : list Z) : result (list Z) :=
  match saved with
  | [] => Ok assignment
  | (first, second) :: rest =>
      assignment' <- store assignment first second ;;
      undo rest assignment'
  end.

(** The unit-propagation loop.  [inl a] is the early [return false] that
    leaves the vector [a] behind; [inr (a, saved)] is the normal exit. *)
Fixpoint solve_units (problem : SATproblem) (unitLiterals : list Z)
  (assignment : list Z) (saved : list (Z * Z))
  : result (list Z + list Z * list (Z * Z)) :=
  match unitLiterals with
  | [] => Ok (inr (assignment, saved))
  | lit :: rest =>
      let var := Z.abs lit in
      value <- at_ assignment (var - 1) ;;
      if value =? 0 then
        let saved' := saved ++ [(var - 1, 0)] in
        assignment' <- store assignment (var - 1) (if lit >? 0 then 1 else -1) ;;
        conflict <- checkConflict problem assignment' ;;
        if conflict then
          restored <- undo saved' assignment' ;;
          Ok (inl restored)
        else solve_units problem rest assignment' saved'
      else solve_units problem rest assignment saved
  end.

(** The pure-literal loop. *)
Fixpoint solve_pures (pureLiterals : list Z) (assignment : list Z)
  (saved : list (Z * Z)) : result (list Z * list (Z * Z)) :=
  match pureLiterals with
  | [] => Ok (assignment, saved)
  | lit :: rest =>
      let var := Z.abs lit in
      value <- at_ assignment (var - 1) ;;
      if value =? 0 then
        assignment' <- store assignment (var - 1) (if lit >? 0 then 1 else -1) ;;
        solve_pures rest assignment' (saved ++ [(var - 1, 0)])
      else solve_pures rest assignment saved
  end.

(** [while (nextVar <= numVars && assignment[nextVar-1] != 0) nextVar++;]
    [n] bounds the iterations; the caller passes the distance to
    [numVars + 1], which the loop cannot exceed. *)
Fixpoint solve_next (n : nat) (nv : Z) (assignment : list Z) (nextVar : Z)
  : result Z :=
  if nextVar <=? nv then
    value <- at_ assignment (nextVar - 1) ;;
    if negb (value =? 0) then
      match n with
      | O => OutOfFuel
      | S n' => nextVar' <- int_succ nextVar ;;
                solve_next n' nv assignment nextVar'
      end
    else Ok nextVar
  else Ok nextVar.

(** [solve]: [fuel] bounds the depth of the recursion.  The result is the
    returned boolean and the assignment vector after the call. *)
Fixpoint solve (fuel : nat) (problem : SATproblem) (assignment : list Z)
  (varIndex : Z) : result (bool * list Z) :=
  match fuel with
  | O => OutOfFuel
  | S fuel' =>
      conflict <- checkConflict problem assignment ;;
      if conflict then Ok (false, assignment)
      else
        unitLiterals <- findUnitClauses problem assignment ;;
        propagated <- solve_units problem unitLiterals assignment [] ;;
        match propagated with
        | inl restored => Ok (false, restored)
        | inr (assignment1, saved1) =>
            pureLiterals <- findPureLiterals problem assignment1 ;;
            '(assignment2, saved) <- solve_pures pureLiterals assignment1 saved1 ;;
            if varIndex >? numVars problem then
              conflict2 <- checkConflict problem assignment2 ;;
              Ok (negb conflict2, assignment2)
            else
              nextVar <- solve_next (Z.to_nat (numVars problem + 1 - varIndex))
                           (numVars problem) assignment2 varIndex ;;
              if nextVar >? numVars problem then
                conflict2 <- checkConflict problem assignment2 ;;
                Ok (negb conflict2, assignment2)
              else
                assignment3 <- store assignment2 (nextVar - 1) 1 ;;
                next1 <- int_succ nextVar ;;
                '(r1, assignment4) <- solve fuel' problem assignment3 next1 ;;
                if r1 then Ok (true, assignment4)
                else
                  assignment5 <- store assignment4 (nextVar - 1) (-1) ;;
                  next2 <- int_succ nextVar ;;
                  '(r2, assignment6) <- solve fuel' problem assignment5 next2 ;;
                  if r2 then Ok (true, assignment6)
                  else
                    assignment7 <- store assignment6 (nextVar - 1) 0 ;;
                    assignment8 <- undo saved assignment7 ;;
                    Ok (false, assignment8)
        end
  end.

(** ** parseDIMACS *)

Definition is_space (c : ascii) : bool :=
  let n := nat_of_ascii c in
  Nat.eqb n 32 || (Nat.leb 9 n && Nat.leb n 13).

Definition digit_of (c : ascii) : option Z :=
  let n := nat_of_ascii c in
  if Nat.leb 48 n && Nat.leb n 57 then Some (Z.of_nat n - 48) else None.

Definition SIZE_MOD : Z := 2 ^ 64.

(** [getline(cin, line)] until end of input. *)
Fixpoint getlines (s : string) : list string :=
  match s with
  | EmptyString => []
  | String c rest =>
      if Ascii.eqb c "010"%char then EmptyString :: getlines rest
      else match getlines rest with
           | [] => [String c EmptyString]
           | l :: ls => String c l :: ls
           end
  end.

(** An [istringstream]: the characters not yet read and the stream state. *)
Record istream : Type := mkIstream { buf : string; good : bool }.

Fixpoint skip_ws (s : string) : string :=
  match s with
  | EmptyString => EmptyString
  | String c rest => if is_space c then skip_ws rest else s
  end.

Fixpoint skip_word (s : string) : string :=
  match s with
  | EmptyString => EmptyString
  | String c rest => if is_space c then s else skip_word rest
  end.

(** [iss >> str] for a [std::string]; the word itself is not used. *)
Definition extract_word (iss : istream) : istream :=
  if good iss then
    match skip_ws (buf iss) with
    | EmptyString => mkIstream EmptyString false
    | w => mkIstream (skip_word w) true
    end
  else iss.

Fixpoint read_digits (s : string) (acc : Z) (seen : bool) : Z * bool * string :=
  match s with
  | EmptyString => (acc, seen, s)
  | String c rest =>
      match digit_of c with
      | Some d => read_digits rest (10 * acc + d) true
      | None => (acc, seen, s)
      end
  end.

(** [iss >> n] for an [int].  The second component is the value stored in
    [n], or [None] when [n] is left untouched (the stream had already failed
    or was at its end).  A failed conversion stores 0, an overflow stores the
    nearest bound; both set the fail bit. *)
Definition extract_int (iss : istream) : istream * option Z :=
  if good iss then
    match skip_ws (buf iss) with
    | EmptyString => (mkIstream EmptyString false, None)
    | String c rest as w =>
        let '(negative, body) :=
          if Ascii.eqb c "-"%char then (true, rest)
          else if Ascii.eqb c "+"%char then (false, rest)
          else (false, w) in
        let '(magnitude, seen, rest') := read_digits body 0 false in
        if seen then
          let v := if negative then - magnitude else magnitude in
          if v >? INT_MAX then (mkIstream rest' false, Some INT_MAX)
          else if v <? INT_MIN then (mkIstream rest' false, Some INT_MIN)
          else (mkIstream rest' true, Some v)
        else (mkIstream rest' false, Some 0)
    end
  else (iss, None).

(** [while (iss >> lit && lit != 0) { ... clause.push_back(lit); }]
    [abs(INT_MIN)] has no value in [int]. *)
Fixpoint read_clause (fuel : nat) (iss : istream) (nv : Z) (clause : list Z)
  : result (Z * list Z) :=
  match extract_int iss with
  | (iss', Some lit) =>
      if good iss' && negb (lit =? 0) then
        if lit =? INT_MIN then Undefined
        else
          let var := Z.abs lit in
          let nv' := if var >? nv then var else nv in
          match fuel with
          | O => OutOfFuel
          | S fuel' => read_clause fuel' iss' nv' (clause ++ [lit])
          end
      else Ok (nv, clause)
  | (_, None) => Ok (nv, clause)
  end.

(** [std::sort] on a vector of [int]. *)
Fixpoint insert_sorted (x : Z) (l : list Z) : list Z :=
  match l with
  | [] => [x]
  | y :: t => if x <=? y then x :: l else y :: insert_sorted x t
  end.

Fixpoint sort (l : list Z) : list Z :=
  match l with
  | [] => []
  | x :: t => insert_sorted x (sort t)
  end.

(** [std::unique] followed by [erase]: one element of each run is kept. *)
Fixpoint unique (l : list Z) : list Z :=
  match l with
  | [] => []
  | x :: t =>
      match t with
      | [] => [x]
      | y :: _ => if x =? y then unique t else x :: unique t
      end
  end.

(** [for (size_t i = 0; i < clause.size() - 1; i++)]: [bound] is
    [clause.size() - 1] computed in [size_t]. *)
Fixpoint tautology_loop (fuel : nat) (clause : list Z) (bound i : Z) : result bool :=
  if i <? bound then
    match fuel with
    | O => OutOfFuel
    | S fuel' =>
        x <- at_ clause i ;;
        y <- at_ clause (i + 1) ;;
        if x =? - y then Ok true
        else tautology_loop fuel' clause bound (i + 1)
    end
  else Ok false.

Definition is_tautology (clause : list Z) : result bool :=
  tautology_loop (S (length clause)) clause ((size clause - 1) mod SIZE_MOD) 0.

Record parser : Type := mkParser {
  problem_of : SATproblem;
  headerFound : bool
}.

(** The body of the [while (getline(cin, line))] loop. *)
Definition parse_line (st : parser) (line : string) : result parser :=
  match line with
  | EmptyString => Ok st
  | String c _ =>
      if Ascii.eqb c "c"%char then Ok st
      else if Ascii.eqb c "p"%char then
        let iss := extract_word (extract_word (mkIstream line true)) in
        let '(iss', stored) := extract_int iss in
        let nv := match stored with
                  | Some v => v
                  | None => numVars (problem_of st)
                  end in
        Ok (mkParser (mkSATproblem nv (clauses (problem_of st))) true)
      else if negb (headerFound st) then Ok st
      else
        '(nv, raw) <- read_clause (String.length line) (mkIstream line true)
                        (numVars (problem_of st)) [] ;;
        let clause := unique (sort raw) in
        tautology <- is_tautology clause ;;
        if negb tautology
        then Ok (mkParser (mkSATproblem nv (clauses (problem_of st) ++ [clause])) true)
        else Ok (mkParser (mkSATproblem nv (clauses (problem_of st))) true)
  end.

Fixpoint parse_lines (lines : list string) (st : parser) : result parser :=
  match lines with
  | [] => Ok st
  | line :: rest => st' <- parse_line st line ;; parse_lines rest st'
  end.

Definition parseDIMACS (input : string) : result SATproblem :=
  st <- parse_lines (getlines input) (mkParser (mkSATproblem 0 []) false) ;;
  Ok (problem_of st).

(** ** main *)

Definition show_int (z : Z) : string := NilZero.string_of_int (Z.to_int z).

(** The output of the loop [for (i = 0; i < numVars; i++)] of [main]. *)
Fixpoint show_model (n : nat) (i : Z) (assignment : list Z) : result string :=
  match n with
  | O => Ok EmptyString
  | S n' =>
      value <- at_ assignment i ;;
      rest <- show_model n' (i + 1) assignment ;;
      Ok (show_int (value * (i + 1)) ++ " " ++ rest)%string
  end.

(** What the process leaves behind. *)
Record process : Type := mkProcess {
  cout : list string;   (* lines on the result channel *)
  cerr : list string;   (* lines on the diagnostic channel *)
  exit_status : Z
}.

(** The [try] block.  [heap] is how many [int]s the allocator can provide
    for the assignment vector; a larger request throws [std::bad_alloc].
    The result is the lines written to [cout] and the value of a [return]
    executed inside the block, if any. *)
Definition main_try (heap : Z) (input : string) : result (list string * option Z) :=
  problem <- parseDIMACS input ;;
  if numVars problem <=? 0 then Ok (["s ERROR"%string], Some 1)
  else
    assignment <- (if numVars problem >? heap then Throw "std::bad_alloc"
                   else vector_new (numVars problem) 0) ;;
    '(r, assignment') <- solve (S (Z.to_nat (numVars problem))) problem assignment 1 ;;
    if (r : bool) then
      model <- show_model (Z.to_nat (numVars problem)) 0 assignment' ;;
      Ok (["s SATISFIABLE"; "v " ++ model ++ "0"]%string, None)
    else Ok (["s UNSATISFIABLE"%string], None).

(** [main]: the handlers of the [try] block, then [return 0]. *)
Definition main (heap : Z) (input : string) : result process :=
  match main_try heap input with
  | Ok (out, Some code) => Ok (mkProcess out [] code)
  | Ok (out, None) => Ok (mkProcess out [] 0)
  | Throw what => Ok (mkProcess ["s ERROR"%string] [("Exception: " ++ what)%string] 0)
  | Undefined => Undefined
  | OutOfFuel => OutOfFuel
  end.


(** * Specification vocabulary *)

(** The value of variable [var] (1-based) in an assignment vector; variables
    outside the vector count as unassigned. *)
Definition val (a : list Z) (var : Z) : Z :=
  if 1 <=? var then nth (Z.to_nat (var - 1)) a 0 else 0.

Definition in_range (a : list Z) (lit : Z) : Prop := 1 <= Z.abs lit <= size a.

Definition sat (a : list Z) (lit : Z) : bool := lit_satisfied lit (val a (Z.abs lit)).
Definition unassigned (a : list Z) (lit : Z) : bool := val a (Z.abs lit) =? 0.
Definition falsified (a : list Z) (lit : Z) : bool := negb (unassigned a lit) && negb (sat a lit).

Definition clause_satisfied (a clause : list Z) : bool := existsb (sat a) clause.
Definition clause_falsified (a clause : list Z) : bool := forallb (falsified a) clause.
Definition conflicting (a : list Z) (cls : list (list Z)) : bool :=
  existsb (clause_falsified a) cls.

(** The Problem Model invariant, against a bound [n]. *)
Definition lits_in (n : Z) (cls : list (list Z)) : Prop :=
  forall c, In c cls -> forall l, In l c -> 1 <= Z.abs l <= n.

Definition well_formed (p : SATproblem) : Prop := lits_in (numVars p) (clauses p).

(** ** The contract of findUnitClauses *)

(** The literals of a clause whose variable is unassigned, as they occur. *)
Definition unassigned_lits (a c : list Z) : list Z := filter (unassigned a) c.

(** The forced literal of a clause, following the contract: the clause has
    no satisfied literal and exactly one literal with an unassigned variable. *)
Definition forced_literal (a c : list Z) : list Z :=
  if clause_satisfied a c then []
  else match unassigned_lits a c with
       | [l] => [l]
       | _ => []
       end.

Definition unit_literals (a : list Z) (cls : list (list Z)) : list Z :=
  flat_map (forced_literal a) cls.

(** ** The contract of findPureLiterals *)

Definition bit (v : list bool) (i : Z) : bool := nth (Z.to_nat i) v false.

(** Literal [l] occurs in a clause that has no satisfied literal. *)
Definition occurs (a : list Z) (cls : list (list Z)) (l : Z) : bool :=
  existsb (fun c => negb (clause_satisfied a c) && existsb (Z.eqb l) c) cls.

(** The variables [var], [var + 1], ... ([n] of them). *)
Fixpoint vars (var : Z) (n : nat) : list Z :=
  match n with
  | O => []
  | S n' => var :: vars (var + 1) n'
  end.

(** The pure literal of variable [v], following the contract: [v] is
    unassigned and occurs in one polarity only among the clauses that have no
    satisfied literal. *)
Definition pure_literal (a : list Z) (cls : list (list Z)) (v : Z) : list Z :=
  if val a v =? 0 then
    if occurs a cls v && negb (occurs a cls (- v)) then [v]
    else if negb (occurs a cls v) && occurs a cls (- v) then [- v]
    else []
  else [].

Definition pure_literals (a : list Z) (cls : list (list Z)) (nv : Z) : list Z :=
  flat_map (pure_literal a cls) (vars 1 (Z.to_nat nv)).

(** What one iteration of the final loop contributes, from the two flags. *)
Definition pure_of_flags (a : list Z) (pos neg : list bool) (v : Z) : list Z :=
  if val a v =? 0 then
    if bit pos v && negb (bit neg v) then [v]
    else if negb (bit pos v) && bit neg v then [- v]
    else []
  else [].

(** ** The undo list *)

(** [saved] restores [a0] from [a]: every entry records the prior value 0,
    and running the undo loop on [a] gives back [a0]. *)
Definition restores (saved : list (Z * Z)) (a0 a : list Z) : Prop :=
  Forall (fun p => snd p = 0) saved /\ undo saved a = Ok a0.

(** ** Assignments that grow *)

(** [a'] is [a] with some unassigned variables set so as to make a literal
    of [L] true. *)
Definition extends_by (L : list Z) (a a' : list Z) : Prop :=
  size a' = size a /\
  forall v, val a' v = val a v \/
            (val a v = 0 /\ 1 <= v /\
             ((In v L /\ val a' v = 1) \/ (In (- v) L /\ val a' v = -1))).

(** ** The runs of solve *)

(** Steps 1 to 3 of a call that reaches the branching point: no conflict,
    unit literals assigned without conflict ([a1]), pure literals assigned
    ([a2]), every change recorded in [saved]. *)
Definition propagated (p : SATproblem) (a a1 a2 : list Z) (saved : list (Z * Z))
  : Prop :=
  conflicting a (clauses p) = false /\
  exists units pl,
    findUnitClauses p a = Ok units /\ extends_by units a a1 /\
    conflicting a1 (clauses p) = false /\
    findPureLiterals p a1 = Ok pl /\ extends_by pl a1 a2 /\
    restores saved a a2.

(** The terminating runs of [solve], as a relation between the assignment
    and start index at the call, the returned boolean and the assignment
    left behind. *)
Inductive run (p : SATproblem) : list Z -> Z -> bool -> list Z -> Prop :=
| run_conflict a k :
    conflicting a (clauses p) = true ->
    run p a k false a
| run_unit_conflict a k units ax :
    conflicting a (clauses p) = false ->
    findUnitClauses p a = Ok units ->
    extends_by units a ax ->
    conflicting ax (clauses p) = true ->
    run p a k false a
| run_leaf a k a1 a2 saved :
    propagated p a a1 a2 saved ->
    (forall v, k <= v <= numVars p -> val a2 v <> 0) ->
    run p a k true a2
| run_first a k a1 a2 saved nx a' :
    propagated p a a1 a2 saved ->
    k <= nx <= numVars p -> 1 <= nx <= size a2 ->
    (forall v, k <= v < nx -> val a2 v <> 0) -> val a2 nx = 0 ->
    run p (upd (Z.to_nat (nx - 1)) 1 a2) (nx + 1) true a' ->
    run p a k true a'
| run_second a k a1 a2 saved nx a4 a' :
    propagated p a a1 a2 saved ->
    k <= nx <= numVars p -> 1 <= nx <= size a2 ->
    (forall v, k <= v < nx -> val a2 v <> 0) -> val a2 nx = 0 ->
    run p (upd (Z.to_nat (nx - 1)) 1 a2) (nx + 1) false a4 ->
    run p (upd (Z.to_nat (nx - 1)) (-1) a4) (nx + 1) true a' ->
    run p a k true a'
| run_exhausted a k a1 a2 saved nx a4 a6 a' :
    propagated p a a1 a2 saved ->
    k <= nx <= numVars p -> 1 <= nx <= size a2 ->
    (forall v, k <= v < nx -> val a2 v <> 0) -> val a2 nx = 0 ->
    run p (upd (Z.to_nat (nx - 1)) 1 a2) (nx + 1) false a4 ->
    run p (upd (Z.to_nat (nx - 1)) (-1) a4) (nx + 1) false a6 ->
    undo saved (upd (Z.to_nat (nx - 1)) 0 a6) = Ok a' ->
    run p a k false a'.

(** ** Models *)

Definition lit_true (m : Z -> bool) (l : Z) : bool :=
  if l >? 0 then m (Z.abs l) else negb (m (Z.abs l)).

Definition models (m : Z -> bool) (cls : list (list Z)) : bool :=
  forallb (existsb (lit_true m)) cls.

(** [m] gives every assigned variable of [a] its assigned truth value. *)
Definition agrees (m : Z -> bool) (a : list Z) : Prop :=
  forall v, (0 < val a v -> m v = true) /\ (val a v < 0 -> m v = false).

(** [m], overridden by the assigned variables of [a]. *)
Definition override (m : Z -> bool) (a : list Z) (v : Z) : bool :=
  if val a v >? 0 then true else if val a v <? 0 then false else m v.

(** ** The driver on the all-unassigned vector *)

(** The vector [main] allocates: [numVars] entries, all 0. *)
Definition unassigned_vector (p : SATproblem) : list Z :=
  repeat 0 (Z.to_nat (numVars p)).

(** A total assignment in the program's own encoding: every entry is 1
    (true) or -1 (false). *)
Definition total (t : list Z) : Prop := Forall (fun x => x = 1 \/ x = -1) t.

(** Every clause has a literal whose variable has the value of its polarity. *)
Definition satisfies (t : list Z) (p : SATproblem) : Prop :=
  forall c, In c (clauses p) -> exists l, In l c /\ sat t l = true.

Definition satisfiable (p : SATproblem) : Prop :=
  exists t, size t = numVars p /\ total t /\ satisfies t p.

(** The Problem Model invariant as a test. *)
Definition lits_inb (n : Z) (cls : list (list Z)) : bool :=
  forallb (forallb (fun l => (1 <=? Z.abs l) && (Z.abs l <=? n))) cls.

Definition well_formedb (p : SATproblem) : bool := lits_inb (numVars p) (clauses p).

(** ** Inputs of the process *)

Definition nl : string := String "010"%char EmptyString.

(** A header and one clause line that holds only the terminating 0. *)
Definition input_empty_clause : string := ("p cnf 1 1" ++ nl ++ "0" ++ nl)%string.

(** A clause with variable 2 in both polarities, not next to each other
    once sorted. *)
Definition input_split_tautology : string :=
  ("p cnf 2 1" ++ nl ++ "-2 1 2 0" ++ nl)%string.

(** A header that declares two thousand million variables, and no clause. *)
Definition input_huge : string := ("p cnf 2000000000 0" ++ nl)%string.

(** ** Small problems *)

(** [(x1 or x2) and (not x1 or x2)]. *)
Definition example_sat : SATproblem := mkSATproblem 2 [[1; 2]; [-1; 2]].

(** All four clauses over two variables. *)
Definition example_unsat : SATproblem :=
  mkSATproblem 2 [[1; 2]; [1; -2]; [-1; 2]; [-1; -2]].

(** Three clauses, scanned under [x2 = false], [x1] and [x3] unassigned. *)
Definition example_partial : SATproblem := mkSATproblem 3 [[1; 2]; [-1; 3]; [-3; 2]].

(** ** The recursion depth *)

(** The outcome is not the exhaustion of the model's fuel. *)
Definition within_fuel {A : Type} (r : result A) : Prop := r <> OutOfFuel.

(** ** Stored clauses *)

(** Every clause the parser stores is strictly increasing, hence free of
    duplicates; it is not empty; and no two neighbours are [x], [-x]. *)
Definition stored_ok (c : list Z) : Prop :=
  StronglySorted Z.lt c /\ c <> [] /\
  forall j, 0 <= j < (size c - 1) mod SIZE_MOD ->
    nth (Z.to_nat j) c 0 <> - nth (Z.to_nat (j + 1)) c 0.

(** ** Further vocabulary *)

(** No clause holds the literal 0. *)
Definition nonzero_lits (cls : list (list Z)) : Prop :=
  forall c, In c cls -> ~ In 0 c.

Definition nonzero_litsb (cls : list (list Z)) : bool :=
  forallb (forallb (fun l => negb (l =? 0))) cls.

(** Every variable of the vector has a value. *)
Definition decided (a : list Z) : Prop :=
  forall v, 1 <= v <= size a -> val a v <> 0.

(** The line starts with [p]. *)
Definition is_header (line : string) : bool :=
  match line with
  | EmptyString => false
  | String c _ => Ascii.eqb c "p"%char
  end.

(** The line is empty or starts with [c]. *)
Definition is_skipped (line : string) : bool :=
  match line with
  | EmptyString => true
  | String c _ => Ascii.eqb c "c"%char
  end.

(** The text [main] prints between ["v "] and the final ["0"] for the
    entries [t], the first of which belongs to variable [i + 1]. *)
Fixpoint model_line (t : list Z) (i : Z) : string :=
  match t with
  | [] => EmptyString
  | x :: rest => (show_int (x * (i + 1)) ++ " " ++ model_line rest (i + 1))%string
  end.

(** The literals of a total vector: [i] or [-i] for variable [i]. *)
Fixpoint model_literals (t : list Z) (i : Z) : list Z :=
  match t with
  | [] => []
  | x :: rest => x * (i + 1) :: model_literals rest (i + 1)
  end.

(** The text of the numbers [lits], each followed by a space, the way
    [main] prints the entries of a model. *)
Fixpoint print_lits (lits : list Z) : string :=
  match lits with
  | [] => EmptyString
  | l :: rest => (show_int l ++ " " ++ print_lits rest)%string
  end.

(** [agrees], as a test over the variables of the vector. *)
Definition agreesb (m : Z -> bool) (a : list Z) : bool :=
  forallb (fun v => (negb (0 <? val a v) || m v) && (negb (val a v <? 0) || negb (m v)))
    (vars 1 (length a)).

(** The number a string of decimal digits denotes after the digits that
    gave [acc]. *)
Fixpoint uint_value (d : uint) (acc : Z) : Z :=
  match d with
  | Nil => acc
  | D0 d => uint_value d (10 * acc + 0)
  | D1 d => uint_value d (10 * acc + 1)
  | D2 d => uint_value d (10 * acc + 2)
  | D3 d => uint_value d (10 * acc + 3)
  | D4 d => uint_value d (10 * acc + 4)
  | D5 d => uint_value d (10 * acc + 5)
  | D6 d => uint_value d (10 * acc + 6)
  | D7 d => uint_value d (10 * acc + 7)
  | D8 d => uint_value d (10 * acc + 8)
  | D9 d => uint_value d (10 * acc + 9)
  end.

(** The text does not start with a digit. *)
Definition no_digit_head (s : string) : bool :=
  match s with
  | EmptyString => true
  | String c _ => match digit_of c with
                  | Some _ => false
                  | None => true
                  end
  end.

(** [decided], as a test. *)
Definition decidedb (a : list Z) : bool := forallb (fun x => negb (x =? 0)) a.


(** A header after two lines that are ignored. *)
Definition input_preamble : string :=
  ("c a comment" ++ nl ++ "1 2 0" ++ nl ++ "p cnf 2 2" ++ nl
   ++ "1 2 0" ++ nl ++ "-1 2 0" ++ nl)%string.

(** A comment and a clause, no header. *)
Definition input_no_header : string := ("c a comment" ++ nl ++ "1 2 0" ++ nl)%string.

(** * Proofs *)

(** ** Monad and vector lemmas *)

Lemma bind_Ok {A B : Type} (r : result A) (k : A -> result B) (b : B) :
  bind r k = Ok b -> exists a, r = Ok a /\ k a = Ok b.
Proof. destruct r; simpl; intros H; try discriminate. eauto. Qed.

Ltac inv_bind H :=
  let x := fresh "x" in
  let Hx := fresh "E" in
  apply bind_Ok in H; destruct H as (x & Hx & H).

Lemma int_succ_Ok (x y : Z) : int_succ x = Ok y -> x < INT_MAX /\ y = x + 1.
Proof.
  unfold int_succ. destruct (Z.ltb_spec x INT_MAX) as [Hlt|Hge]; [|discriminate].
  intros E. inversion E. auto.
Qed.

Lemma int_succ_in (x : Z) : x < INT_MAX -> int_succ x = Ok (x + 1).
Proof.
  intros H. unfold int_succ.
  now replace (x <? INT_MAX) with true by (symmetry; apply Z.ltb_lt; exact H).
Qed.

(** Inverts [y <- int_succ x ;; k] in [H], replacing [y] by [x + 1]. *)
Ltac inv_succ H :=
  let y := fresh "y" in
  let Hy := fresh "Ey" in
  let Hlt := fresh "Hmax" in
  apply bind_Ok in H; destruct H as (y & Hy & H);
  apply int_succ_Ok in Hy; destruct Hy as [Hlt Hy]; subst y.

Lemma size_nonneg {A : Type} (v : list A) : 0 <= size v.
Proof. unfold size. lia. Qed.

Lemma length_upd {A : Type} (n : nat) (x : A) (v : list A) :
  length (upd n x v) = length v.
Proof.
  revert n. induction v as [|h t IH]; intros [|n]; simpl; auto.
Qed.

Lemma size_upd {A : Type} (n : nat) (x : A) (v : list A) : size (upd n x v) = size v.
Proof. unfold size. now rewrite length_upd. Qed.

Lemma nth_upd_same {A : Type} (n : nat) (x d : A) (v : list A) :
  (n < length v)%nat -> nth n (upd n x v) d = x.
Proof.
  revert n. induction v as [|h t IH]; intros [|n] Hn; simpl in *; try lia; auto.
  apply IH. lia.
Qed.

Lemma nth_upd_other {A : Type} (n m : nat) (x d : A) (v : list A) :
  n <> m -> nth m (upd n x v) d = nth m v d.
Proof.
  revert n m. induction v as [|h t IH]; intros [|n] [|m] Hnm; simpl; auto.
  - contradiction.
Qed.

Lemma upd_upd_same {A : Type} (n : nat) (x y : A) (v : list A) :
  upd n y (upd n x v) = upd n y v.
Proof.
  revert n. induction v as [|h t IH]; intros [|n]; simpl; auto.
  now rewrite IH.
Qed.

Lemma upd_upd_comm {A : Type} (n m : nat) (x y : A) (v : list A) :
  n <> m -> upd n x (upd m y v) = upd m y (upd n x v).
Proof.
  revert n m. induction v as [|h t IH]; intros [|n] [|m] Hnm; simpl; auto.
  - contradiction.
  - now rewrite IH by auto.
Qed.

Lemma upd_nth_id {A : Type} (n : nat) (d : A) (v : list A) :
  (n < length v)%nat -> upd n (nth n v d) v = v.
Proof.
  revert n. induction v as [|h t IH]; intros [|n] Hn; simpl in *; try lia; auto.
  now rewrite IH by lia.
Qed.

Lemma at_Ok {A : Type} (v : list A) (i : Z) (x d : A) :
  at_ v i = Ok x -> 0 <= i < size v /\ x = nth (Z.to_nat i) v d.
Proof.
  unfold at_. destruct ((0 <=? i) && (i <? size v)) eqn:E; try discriminate.
  apply andb_true_iff in E. destruct E as [E1 E2].
  destruct (nth_error v (Z.to_nat i)) eqn:En; try discriminate.
  intros H; inversion H; subst. split; [lia|].
  symmetry. now apply nth_error_nth.
Qed.

Lemma at_in {A : Type} (v : list A) (i : Z) (d : A) :
  0 <= i < size v -> at_ v i = Ok (nth (Z.to_nat i) v d).
Proof.
  intros Hi. unfold at_.
  replace ((0 <=? i) && (i <? size v)) with true
    by (symmetry; apply andb_true_iff; lia).
  destruct (nth_error v (Z.to_nat i)) eqn:En.
  - now rewrite (nth_error_nth _ _ d En).
  - apply nth_error_None in En. unfold size in Hi. lia.
Qed.

Lemma store_Ok {A : Type} (v v' : list A) (i : Z) (x : A) :
  store v i x = Ok v' -> 0 <= i < size v /\ v' = upd (Z.to_nat i) x v.
Proof.
  unfold store. destruct ((0 <=? i) && (i <? size v)) eqn:E; try discriminate.
  apply andb_true_iff in E. intros H; inversion H; subst. split; [lia|reflexivity].
Qed.

Lemma store_in {A : Type} (v : list A) (i : Z) (x : A) :
  0 <= i < size v -> store v i x = Ok (upd (Z.to_nat i) x v).
Proof.
  intros Hi. unfold store.
  now replace ((0 <=? i) && (i <? size v)) with true
    by (symmetry; apply andb_true_iff; lia).
Qed.

(** Reading the assignment at [var - 1] returns [val]. *)
Lemma at_val (a : list Z) (var x : Z) :
  at_ a (var - 1) = Ok x -> 1 <= var <= size a /\ x = val a var.
Proof.
  intros H. apply (at_Ok _ _ _ 0) in H. destruct H as [Hr ->].
  split; [lia|]. unfold val.
  now replace (1 <=? var) with true by (symmetry; apply Z.leb_le; lia).
Qed.

Lemma at_val_in (a : list Z) (var : Z) :
  1 <= var <= size a -> at_ a (var - 1) = Ok (val a var).
Proof.
  intros H. rewrite (at_in a _ 0) by lia. unfold val.
  now replace (1 <=? var) with true by (symmetry; apply Z.leb_le; lia).
Qed.

Lemma val_outside (a : list Z) (var : Z) :
  ~ (1 <= var <= size a) -> val a var = 0.
Proof.
  intros H. unfold val. destruct (1 <=? var) eqn:E; auto.
  apply Z.leb_le in E. apply nth_overflow. unfold size in H. lia.
Qed.

Lemma val_upd_same (a : list Z) (var x : Z) :
  1 <= var <= size a -> val (upd (Z.to_nat (var - 1)) x a) var = x.
Proof.
  intros H. unfold val.
  replace (1 <=? var) with true by (symmetry; apply Z.leb_le; lia).
  apply nth_upd_same. unfold size in H. lia.
Qed.

Lemma val_upd_other (a : list Z) (var w x : Z) :
  1 <= var -> var <> w -> val (upd (Z.to_nat (var - 1)) x a) w = val a w.
Proof.
  intros H Hw. unfold val. destruct (1 <=? w) eqn:E; auto.
  apply Z.leb_le in E. apply nth_upd_other. lia.
Qed.

Lemma val_ext (a b : list Z) :
  size a = size b -> (forall v, 1 <= v <= size a -> val a v = val b v) -> a = b.
Proof.
  intros Hs Hv. apply nth_ext with (d := 0) (d' := 0).
  - unfold size in Hs. lia.
  - intros n Hn. specialize (Hv (Z.of_nat n + 1)).
    unfold val in Hv.
    replace (1 <=? Z.of_nat n + 1) with true in Hv by (symmetry; apply Z.leb_le; lia).
    replace (Z.to_nat (Z.of_nat n + 1 - 1)) with n in Hv by lia.
    apply Hv. unfold size. lia.
Qed.

(** ** checkConflict: a conflict is a clause whose literals are all falsified *)

Lemma checkConflict_clause_Ok (a c : list Z) (s u : bool) :
  checkConflict_clause a c = Ok (s, u) -> negb s && negb u = clause_falsified a c.
Proof.
  induction c as [|l c IH]; simpl.
  - intros H; inversion H; reflexivity.
  - destruct (Z.abs l >? size a) eqn:E.
    + intros H; inversion H; subst. unfold falsified, unassigned.
      rewrite val_outside by lia. reflexivity.
    + intros H. inv_bind H. apply at_val in E0. destruct E0 as [Hr ->].
      unfold falsified at 1, unassigned.
      destruct (val a (Z.abs l) =? 0) eqn:Ev.
      * inversion H; reflexivity.
      * fold (sat a l) in H. destruct (sat a l) eqn:Es.
        -- inversion H; reflexivity.
        -- simpl. auto.
Qed.

Lemma checkConflict_clause_total (a c : list Z) :
  Forall (fun l => l <> 0) c -> exists r, checkConflict_clause a c = Ok r.
Proof.
  induction 1 as [|l c Hl Hc IH]; simpl; eauto.
  destruct (Z.abs l >? size a) eqn:E; eauto.
  rewrite at_val_in by lia. simpl.
  destruct (val a (Z.abs l) =? 0); eauto.
  destruct (lit_satisfied l (val a (Z.abs l))); eauto.
Qed.

Lemma checkConflict_clauses_Ok (cls : list (list Z)) (a : list Z) (b : bool) :
  checkConflict_clauses cls a = Ok b -> b = conflicting a cls.
Proof.
  induction cls as [|c cls IH]; simpl.
  - intros H; inversion H; reflexivity.
  - intros H. inv_bind H. destruct x as [s u].
    apply checkConflict_clause_Ok in E. rewrite <- E.
    destruct (negb s && negb u); simpl; auto.
    inversion H; reflexivity.
Qed.

Lemma checkConflict_clauses_total (cls : list (list Z)) (a : list Z) :
  Forall (Forall (fun l => l <> 0)) cls ->
  checkConflict_clauses cls a = Ok (conflicting a cls).
Proof.
  induction 1 as [|c cls Hc Hcls IH]; simpl; auto.
  destruct (checkConflict_clause_total a c Hc) as [[s u] E].
  rewrite E. simpl. rewrite <- (checkConflict_clause_Ok _ _ _ _ E).
  destruct (negb s && negb u); simpl; auto.
Qed.

Lemma checkConflict_Ok (p : SATproblem) (a : list Z) (b : bool) :
  checkConflict p a = Ok b -> b = conflicting a (clauses p).
Proof. apply checkConflict_clauses_Ok. Qed.

Lemma lits_in_nonzero (n : Z) (cls : list (list Z)) :
  lits_in n cls -> Forall (Forall (fun l => l <> 0)) cls.
Proof.
  intros H. apply Forall_forall. intros c Hc. apply Forall_forall. intros l Hl.
  specialize (H c Hc l Hl). lia.
Qed.

Lemma checkConflict_total (p : SATproblem) (a : list Z) :
  well_formed p -> checkConflict p a = Ok (conflicting a (clauses p)).
Proof.
  intros H. apply checkConflict_clauses_total. eapply lits_in_nonzero; eauto.
Qed.

(** ** findUnitClauses *)

(** What a completed scan of one clause says when it reports a literal. *)
Lemma findUnit_clause_Ok (a c : list Z) :
  forall u u',
    findUnit_clause a c u = Ok (u', false) -> u' <> 0 ->
    Forall (in_range a) c /\ clause_satisfied a c = false /\
    (if u =? 0 then unassigned_lits a c = [u']
     else unassigned_lits a c = [] /\ u' = u).
Proof.
  induction c as [|l c IH]; simpl; intros u u' H Hu'.
  - inversion H; subst. destruct (Z.eqb_spec u' 0); [contradiction|]. auto.
  - inv_bind H. apply at_val in E. destruct E as [Hr ->].
    fold (sat a l) in H. unfold unassigned_lits. simpl.
    replace (unassigned a l) with (val a (Z.abs l) =? 0) by reflexivity.
    fold (unassigned_lits a c).
    destruct (sat a l) eqn:Es; [discriminate|].
    destruct (val a (Z.abs l) =? 0) eqn:Ev.
    + destruct (Z.eqb_spec u 0) as [->|Hu]; simpl in H.
      * apply IH in H; auto. destruct H as (Hf & Hs & Hl).
        assert (Hl0 : l <> 0) by lia.
        destruct (Z.eqb_spec l 0); [contradiction|].
        destruct Hl as [Hl ->]. rewrite Hl.
        split; [constructor; auto|]. simpl. auto.
      * inversion H; subst. contradiction.
    + apply IH in H; auto. destruct H as (Hf & Hs & Hl).
      split; [constructor; auto|]. simpl. auto.
Qed.

(** The scan of one clause, on a clause whose literals are in range. *)
Lemma findUnit_clause_total (a c : list Z) :
  Forall (in_range a) c ->
  forall u, exists u' s,
    findUnit_clause a c u = Ok (u', s) /\
    if negb s && negb (u' =? 0)
    then clause_satisfied a c = false /\
         (if u =? 0 then unassigned_lits a c = [u']
          else unassigned_lits a c = [] /\ u' = u)
    else clause_satisfied a c = true \/
         (if u =? 0 then length (unassigned_lits a c) <> 1%nat
          else unassigned_lits a c <> []).
Proof.
  induction 1 as [|l c Hl Hc IH]; simpl; intros u.
  - exists u, false. split; auto. simpl.
    destruct (Z.eqb_spec u 0); simpl; auto.
  - rewrite at_val_in by exact Hl. simpl.
    fold (sat a l). unfold unassigned_lits. simpl.
    replace (unassigned a l) with (val a (Z.abs l) =? 0) by reflexivity.
    fold (unassigned_lits a c).
    destruct (sat a l) eqn:Es.
    { exists u, true. split; auto. simpl. auto. }
    destruct (val a (Z.abs l) =? 0) eqn:Ev.
    + destruct (Z.eqb_spec u 0) as [->|Hu]; simpl.
      * destruct (IH l) as (u' & s & E & Hspec). exists u', s. split; auto.
        assert (Hl0 : l <> 0) by (unfold in_range in Hl; lia).
        destruct (Z.eqb_spec l 0); [contradiction|].
        destruct (negb s && negb (u' =? 0)).
        -- destruct Hspec as (Hs & Hu & ->). rewrite Hu. auto.
        -- destruct Hspec as [Hs|Hs]; auto. right.
           destruct (unassigned_lits a c); simpl; auto.
      * exists 0, false. destruct (Z.eqb_spec u 0); [contradiction|].
        split; auto. simpl. right. discriminate.
    + destruct (IH u) as (u' & s & E & Hspec). exists u', s. split; auto.
Qed.

Lemma findUnit_clauses_total (a : list Z) (cls : list (list Z)) :
  Forall (Forall (in_range a)) cls ->
  forall acc, findUnit_clauses cls a acc = Ok (acc ++ unit_literals a cls).
Proof.
  induction 1 as [|c cls Hc Hcls IH]; simpl; intros acc.
  - now rewrite app_nil_r.
  - destruct (findUnit_clause_total a c Hc 0) as (u' & s & E & Hspec).
    rewrite E. simpl. unfold forced_literal at 1.
    destruct (negb s && negb (u' =? 0)).
    + destruct Hspec as (Hs & Hu). simpl in Hu. rewrite Hs, Hu.
      rewrite IH. now rewrite <- app_assoc.
    + rewrite IH. destruct Hspec as [Hs|Hs].
      * now rewrite Hs.
      * simpl in Hs. destruct (clause_satisfied a c); auto.
        destruct (unassigned_lits a c) as [|x [|y t]]; auto.
        simpl in Hs. contradiction.
Qed.

(** Every literal reported comes from a clause scanned to its end. *)
Lemma findUnit_clauses_Ok (a : list Z) (cls : list (list Z)) :
  forall acc r,
    findUnit_clauses cls a acc = Ok r ->
    forall l, In l r ->
      In l acc \/
      exists c, In c cls /\ Forall (in_range a) c /\
                clause_satisfied a c = false /\ unassigned_lits a c = [l].
Proof.
  induction cls as [|c cls IH]; simpl; intros acc r H l Hl.
  - inversion H; subst. auto.
  - inv_bind H. destruct x as [u' s].
    destruct (negb s && negb (u' =? 0)) eqn:Eb.
    + apply andb_true_iff in Eb. destruct Eb as [Es Eu].
      destruct s; [discriminate|].
      destruct (Z.eqb_spec u' 0); [discriminate|].
      apply findUnit_clause_Ok in E; auto. simpl in E.
      destruct E as (Hf & Hs & Hu).
      destruct (IH _ _ H l Hl) as [Hin|(c' & Hc' & Hrest)].
      * apply in_app_or in Hin. destruct Hin as [Hin|[<-|[]]]; auto.
        right. exists c. auto.
      * right. exists c'. auto.
    + destruct (IH _ _ H l Hl) as [Hin|(c' & Hc' & Hrest)]; auto.
      right. exists c'. auto.
Qed.

(** ** findPureLiterals *)

Lemma flat_map_ext_on {A B : Type} (f g : A -> list B) (l : list A) :
  (forall x, In x l -> f x = g x) -> flat_map f l = flat_map g l.
Proof.
  induction l as [|x l IH]; simpl; intros H; auto.
  rewrite H by auto. now rewrite IH by auto.
Qed.

Lemma vars_ge (n : nat) : forall var v, In v (vars var n) -> var <= v.
Proof.
  induction n as [|n IH]; simpl; intros var v []; [lia|].
  apply IH in H. lia.
Qed.

Lemma bit_upd (v : list bool) (i j : Z) :
  0 <= i < size v -> 0 <= j ->
  bit (upd (Z.to_nat i) true v) j = bit v j || (j =? i).
Proof.
  intros Hi Hj. unfold bit. destruct (Z.eqb_spec j i) as [->|Hne].
  - rewrite nth_upd_same by (unfold size in Hi; lia). now rewrite orb_true_r.
  - rewrite nth_upd_other by lia. now rewrite orb_false_r.
Qed.

Lemma bit_repeat_false (n : nat) (i : Z) : bit (repeat false n) i = false.
Proof.
  unfold bit. generalize (Z.to_nat i). induction n as [|n IH]; intros [|m]; simpl; auto.
Qed.

Lemma pure_satisfied_Ok (a c : list Z) (b : bool) :
  pure_satisfied a c = Ok b ->
  b = clause_satisfied a c /\ (b = false -> Forall (in_range a) c).
Proof.
  induction c as [|l c IH]; simpl; intros H.
  - inversion H; auto.
  - inv_bind H. apply at_val in E. destruct E as [Hr ->].
    fold (sat a l) in H. destruct (sat a l) eqn:Es.
    + inversion H; subst. split; [reflexivity | intros; discriminate].
    + apply IH in H. destruct H as [-> Hf]. split; auto.
Qed.

Lemma pure_satisfied_total (a c : list Z) :
  Forall (in_range a) c -> pure_satisfied a c = Ok (clause_satisfied a c).
Proof.
  induction 1 as [|l c Hl Hc IH]; simpl; auto.
  rewrite at_val_in by exact Hl. simpl. fold (sat a l).
  destruct (sat a l); auto.
Qed.

Lemma pure_mark_Ok (a c : list Z) :
  forall pos neg pos' neg',
    pure_mark a c pos neg = Ok (pos', neg') ->
    length pos' = length pos /\ length neg' = length neg /\
    forall v, 1 <= v ->
      bit pos' v = bit pos v || ((val a v =? 0) && existsb (Z.eqb v) c) /\
      bit neg' v = bit neg v || ((val a v =? 0) && existsb (Z.eqb (- v)) c).
Proof.
  induction c as [|l c IH]; simpl; intros pos neg pos' neg' H.
  - inversion H; subst. repeat split; auto;
      now rewrite andb_false_r, orb_false_r.
  - inv_bind H. apply at_val in E. destruct E as [Hr ->].
    destruct (val a (Z.abs l) =? 0) eqn:Ev.
    + destruct (l >? 0) eqn:El.
      * inv_bind H. apply store_Ok in E. destruct E as [Hi ->].
        apply IH in H. destruct H as (Hp & Hn & Hv).
        rewrite length_upd in Hp. repeat split; auto;
          destruct (Hv v H) as [Hv1 Hv2].
        -- rewrite Hv1, bit_upd by lia.
           destruct (Z.eqb_spec v l) as [->|Hne].
           ++ replace (Z.abs l) with l in Ev |- * by lia.
              rewrite Ev, Z.eqb_refl. btauto.
           ++ replace (v =? Z.abs l) with false by (symmetry; apply Z.eqb_neq; lia).
              btauto.
        -- rewrite Hv2.
           replace (- v =? l) with false by (symmetry; apply Z.eqb_neq; lia).
           reflexivity.
      * inv_bind H. apply store_Ok in E. destruct E as [Hi ->].
        apply IH in H. destruct H as (Hp & Hn & Hv).
        rewrite length_upd in Hn. repeat split; auto;
          destruct (Hv v H) as [Hv1 Hv2].
        -- rewrite Hv1.
           replace (v =? l) with false by (symmetry; apply Z.eqb_neq; lia).
           reflexivity.
        -- rewrite Hv2, bit_upd by lia.
           destruct (Z.eqb_spec (- v) l) as [E|Hne].
           ++ replace (Z.abs l) with v in Ev |- * by lia.
              rewrite Ev, Z.eqb_refl. btauto.
           ++ replace (v =? Z.abs l) with false by (symmetry; apply Z.eqb_neq; lia).
              btauto.
    + apply IH in H. destruct H as (Hp & Hn & Hv). repeat split; auto;
        destruct (Hv v H) as [Hv1 Hv2].
      * rewrite Hv1. destruct (Z.eqb_spec v l) as [->|Hne]; auto.
        replace (Z.abs l) with l in Ev by lia. rewrite Ev. reflexivity.
      * rewrite Hv2. destruct (Z.eqb_spec (- v) l) as [E|Hne]; auto.
        replace (Z.abs l) with v in Ev by lia. rewrite Ev. reflexivity.
Qed.

Lemma pure_mark_total (a c : list Z) :
  forall pos neg n,
    (forall l, In l c -> 1 <= Z.abs l <= size a /\ Z.abs l <= n) ->
    size pos = n + 1 -> size neg = n + 1 ->
    exists r, pure_mark a c pos neg = Ok r.
Proof.
  induction c as [|l c IH]; simpl; intros pos neg n Hc Hp Hn; eauto.
  destruct (Hc l (or_introl eq_refl)) as [Hl1 Hl2].
  rewrite at_val_in by exact Hl1. simpl.
  destruct (val a (Z.abs l) =? 0); [destruct (l >? 0)|].
  - rewrite store_in by lia. simpl. apply IH with (n := n); auto.
    now rewrite size_upd.
  - rewrite store_in by lia. simpl. apply IH with (n := n); auto.
    now rewrite size_upd.
  - apply IH with (n := n); auto.
Qed.

Lemma pure_clauses_Ok (a : list Z) (cls : list (list Z)) :
  forall pos neg pos' neg',
    pure_clauses cls a pos neg = Ok (pos', neg') ->
    length pos' = length pos /\ length neg' = length neg /\
    (forall c, In c cls -> clause_satisfied a c = false -> Forall (in_range a) c) /\
    forall v, 1 <= v ->
      bit pos' v = bit pos v || ((val a v =? 0) && occurs a cls v) /\
      bit neg' v = bit neg v || ((val a v =? 0) && occurs a cls (- v)).
Proof.
  induction cls as [|c cls IH]; simpl; intros pos neg pos' neg' H.
  - inversion H; subst. repeat split; auto; try contradiction;
      now rewrite andb_false_r, orb_false_r.
  - inv_bind H. apply pure_satisfied_Ok in E. destruct E as [-> Hf].
    destruct (clause_satisfied a c) eqn:Es; simpl in H.
    + apply IH in H. destruct H as (Hp & Hn & Hr & Hv).
      repeat split; auto.
      * intros c' [<-|Hc'] Hs; [congruence|auto].
      * now destruct (Hv v H).
      * now destruct (Hv v H).
    + inv_bind H. destruct x as [pos1 neg1].
      apply pure_mark_Ok in E. destruct E as (Hp1 & Hn1 & Hv1).
      apply IH in H. destruct H as (Hp & Hn & Hr & Hv).
      repeat split; try congruence.
      * intros c' [<-|Hc'] Hs; auto.
      * destruct (Hv v H) as [-> _]. destruct (Hv1 v H) as [-> _].
        btauto.
      * destruct (Hv v H) as [_ ->]. destruct (Hv1 v H) as [_ ->].
        btauto.
Qed.

Lemma pure_clauses_total (a : list Z) (cls : list (list Z)) (n : Z) :
  lits_in n cls -> n <= size a ->
  forall pos neg,
    size pos = n + 1 -> size neg = n + 1 ->
    exists r, pure_clauses cls a pos neg = Ok r.
Proof.
  induction cls as [|c cls IH]; simpl; intros Hc Hn pos neg Hp Hg; eauto.
  assert (Hin : forall l, In l c -> 1 <= Z.abs l <= size a /\ Z.abs l <= n).
  { intros l Hl. specialize (Hc c (or_introl eq_refl) l Hl). lia. }
  assert (Hcls : lits_in n cls).
  { intros c' Hc'. apply Hc. now right. }
  rewrite pure_satisfied_total
    by (apply Forall_forall; intros l Hl; apply Hin; auto).
  simpl. destruct (clause_satisfied a c); simpl; auto.
  destruct (pure_mark_total a c pos neg n Hin Hp Hg) as [[pos1 neg1] E].
  rewrite E. simpl. apply pure_mark_Ok in E. destruct E as (Hp1 & Hn1 & _).
  apply IH; auto; unfold size in *; congruence.
Qed.

Lemma pure_collect_Ok (a : list Z) (pos neg : list bool) (n : nat) :
  forall var acc r,
    pure_collect n var a pos neg acc = Ok r ->
    r = acc ++ flat_map (pure_of_flags a pos neg) (vars var n).
Proof.
  induction n as [|n IH]; simpl; intros var acc r H.
  - inversion H. now rewrite app_nil_r.
  - inv_bind H. apply at_val in E. destruct E as [Hr ->].
    unfold pure_of_flags at 1.
    destruct (val a var =? 0).
    + inv_bind H. apply (at_Ok _ _ _ false) in E. destruct E as [_ ->].
      fold (bit pos var) in *. destruct (bit pos var).
      * inv_bind H. apply (at_Ok _ _ _ false) in E. destruct E as [_ ->].
        fold (bit neg var) in *. destruct (bit neg var); simpl in *.
        -- inv_succ H. now apply IH.
        -- inv_succ H. apply IH in H. now rewrite H, <- app_assoc.
      * inv_bind H. apply (at_Ok _ _ _ false) in E. destruct E as [_ ->].
        fold (bit neg var) in *. destruct (bit neg var); simpl in *.
        -- inv_succ H. apply IH in H. now rewrite H, <- app_assoc.
        -- inv_succ H. now apply IH.
    + inv_succ H. now apply IH.
Qed.

Lemma pure_collect_total (a : list Z) (pos neg : list bool) (n : nat) :
  forall var acc,
    1 <= var -> var + Z.of_nat n <= size a + 1 ->
    var + Z.of_nat n <= size pos -> var + Z.of_nat n <= size neg ->
    var + Z.of_nat n <= INT_MAX ->
    exists r, pure_collect n var a pos neg acc = Ok r.
Proof.
  induction n as [|n IH]; simpl pure_collect; intros var acc Hv Ha Hp Hn Hm; eauto.
  rewrite at_val_in by lia. simpl.
  destruct (val a var =? 0);
    [|rewrite int_succ_in by lia; simpl; apply IH; lia].
  rewrite (at_in pos var false) by lia. simpl.
  rewrite (at_in neg var false) by lia.
  destruct (nth (Z.to_nat var) pos false); simpl;
    destruct (nth (Z.to_nat var) neg false); simpl;
    rewrite int_succ_in by lia; simpl; apply IH; lia.
Qed.

Lemma findPureLiterals_Ok (p : SATproblem) (a r : list Z) :
  findPureLiterals p a = Ok r ->
  r = pure_literals a (clauses p) (numVars p) /\
  (forall c, In c (clauses p) -> clause_satisfied a c = false ->
             Forall (in_range a) c).
Proof.
  unfold findPureLiterals, vector_new. intros H.
  inv_succ H. destruct (numVars p + 1 <? 0) eqn:En; [discriminate|]. simpl in H.
  inv_succ H. rewrite En in H. simpl in H.
  inv_bind H. destruct x as [pos neg].
  apply pure_clauses_Ok in E. destruct E as (_ & _ & Hr & Hv).
  apply pure_collect_Ok in H. simpl in H. split; auto.
  subst r. unfold pure_literals.
  apply flat_map_ext_on. intros v Hin. apply vars_ge in Hin.
  unfold pure_of_flags, pure_literal.
  destruct (Hv v Hin) as [-> ->]. rewrite !bit_repeat_false. simpl.
  destruct (val a v =? 0); reflexivity.
Qed.

Lemma findPureLiterals_total (p : SATproblem) (a : list Z) :
  well_formed p -> 0 <= numVars p <= size a -> numVars p < INT_MAX ->
  findPureLiterals p a = Ok (pure_literals a (clauses p) (numVars p)).
Proof.
  intros Hwf Hn Hmax.
  assert (E : exists r, findPureLiterals p a = Ok r).
  { unfold findPureLiterals, vector_new.
    rewrite int_succ_in by exact Hmax. simpl.
    replace (numVars p + 1 <? 0) with false by (symmetry; apply Z.ltb_ge; lia).
    simpl.
    assert (Hs : size (repeat false (Z.to_nat (numVars p + 1))) = numVars p + 1).
    { unfold size. rewrite repeat_length. lia. }
    destruct (pure_clauses_total a (clauses p) (numVars p) Hwf (proj2 Hn) _ _ Hs Hs)
      as [[pos neg] E].
    rewrite E. simpl. apply pure_clauses_Ok in E. destruct E as (Hp & Hg & _).
    rewrite repeat_length in Hp, Hg.
    apply pure_collect_total; unfold size in *; lia. }
  destruct E as [r E]. rewrite E. f_equal. now apply findPureLiterals_Ok.
Qed.

(** ** The undo list *)

Lemma undo_app (s1 s2 : list (Z * Z)) :
  forall a, undo (s1 ++ s2) a = a' <- undo s1 a ;; undo s2 a'.
Proof.
  induction s1 as [|[f s] s1 IH]; simpl; intros a; auto.
  destruct (store a f s); simpl; auto.
Qed.

Lemma undo_zero (saved : list (Z * Z)) :
  forall a b i,
    Forall (fun p => snd p = 0) saved -> undo saved a = Ok b ->
    length b = length a /\ (nth i a 0 = 0 -> nth i b 0 = 0).
Proof.
  induction saved as [|[f s] saved IH]; simpl; intros a b i Hz H.
  - inversion H; subst. auto.
  - inversion Hz as [|? ? Hs Hz']; subst. simpl in Hs. subst s.
    inv_bind H. apply store_Ok in E. destruct E as [Hf ->].
    destruct (IH _ _ i Hz' H) as [Hlen Hnth].
    rewrite length_upd in Hlen. split; auto.
    intros Hi. apply Hnth.
    destruct (Nat.eq_dec (Z.to_nat f) i) as [<-|Hne].
    + apply nth_upd_same. unfold size in Hf. lia.
    + now rewrite nth_upd_other.
Qed.

Lemma undo_upd (saved : list (Z * Z)) :
  forall a a0 i x,
    Forall (fun p => snd p = 0) saved -> undo saved a = Ok a0 ->
    (i < length a)%nat -> nth i a 0 = 0 ->
    exists b, undo saved (upd i x a) = Ok b /\ upd i 0 b = a0.
Proof.
  induction saved as [|[f s] saved IH]; simpl; intros a a0 i x Hz H Hi Hn.
  - inversion H; subst. eexists; split; eauto.
    rewrite upd_upd_same. rewrite <- Hn at 1. now apply upd_nth_id.
  - inversion Hz as [|? ? Hs Hz']; subst. simpl in Hs. subst s.
    inv_bind H. apply store_Ok in E. destruct E as [Hf ->].
    rewrite store_in by (now rewrite size_upd). simpl.
    destruct (Nat.eq_dec i (Z.to_nat f)) as [->|Hne].
    + rewrite upd_upd_same. exists a0. split; auto.
      destruct (undo_zero _ _ _ (Z.to_nat f) Hz' H) as [Hlen Hnth].
      rewrite length_upd in Hlen.
      rewrite <- (Hnth (nth_upd_same _ _ _ _ Hi)) at 1.
      apply upd_nth_id. lia.
    + rewrite upd_upd_comm by auto. apply IH; auto.
      * now rewrite length_upd.
      * now rewrite nth_upd_other by auto.
Qed.

Lemma restores_nil (a : list Z) : restores [] a a.
Proof. split; [constructor|reflexivity]. Qed.

(** Recording variable [var] and assigning it keeps the undo list exact. *)
Lemma restores_step (saved : list (Z * Z)) (a0 a : list Z) (var x : Z) :
  restores saved a0 a -> 1 <= var <= size a -> val a var = 0 ->
  restores (saved ++ [(var - 1, 0)]) a0 (upd (Z.to_nat (var - 1)) x a).
Proof.
  intros [Hz Hu] Hr Hv. split.
  - apply Forall_app. split; auto.
  - rewrite undo_app.
    assert (Hn : nth (Z.to_nat (var - 1)) a 0 = 0).
    { unfold val in Hv. destruct (1 <=? var) eqn:E; auto.
      apply Z.leb_gt in E. lia. }
    destruct (undo_upd saved a a0 (Z.to_nat (var - 1)) x Hz Hu) as (b & Hb & Hb0); auto.
    { unfold size in Hr. lia. }
    rewrite Hb. simpl.
    destruct (undo_zero _ _ _ 0%nat Hz Hb) as [Hlen _]. rewrite length_upd in Hlen.
    rewrite store_in by (unfold size in *; lia). simpl. now rewrite Hb0.
Qed.

(** ** Assignments that grow *)

Lemma extends_by_refl (L a : list Z) : extends_by L a a.
Proof. split; auto. Qed.

Lemma extends_by_keeps (L a a' : list Z) (v : Z) :
  extends_by L a a' -> val a v <> 0 -> val a' v = val a v.
Proof. intros [_ H] Hv. destruct (H v) as [E|[E _]]; auto. contradiction. Qed.

Lemma extends_by_step (L a0 a : list Z) (lit : Z) :
  extends_by L a0 a -> In lit L ->
  1 <= Z.abs lit <= size a -> val a (Z.abs lit) = 0 ->
  extends_by L a0 (upd (Z.to_nat (Z.abs lit - 1)) (if lit >? 0 then 1 else -1) a).
Proof.
  intros [Hs He] Hin Hr Hv. split.
  - now rewrite size_upd.
  - intros v. destruct (Z.eq_dec (Z.abs lit) v) as [<-|Hne].
    + rewrite val_upd_same by auto. right.
      assert (H0 : val a0 (Z.abs lit) = 0).
      { destruct (He (Z.abs lit)) as [E|[E _]]; congruence. }
      split; auto. split; [lia|].
      destruct (lit >? 0) eqn:El.
      * left. split; auto. replace (Z.abs lit) with lit by lia. auto.
      * right. split; auto. replace (- Z.abs lit) with lit by lia. auto.
    + rewrite val_upd_other by lia. apply He.
Qed.

Lemma extends_by_trans (L1 L2 a b c : list Z) :
  extends_by L1 a b -> extends_by L2 b c ->
  size c = size a /\
  forall v, val c v = val a v \/ (val a v = 0 /\ (val c v = 1 \/ val c v = -1)).
Proof.
  intros [Hs1 H1] [Hs2 H2]. split; [congruence|].
  intros v. destruct (H1 v) as [E1|(E1 & _ & E1')], (H2 v) as [E2|(E2 & _ & E2')].
  - left. congruence.
  - right. split; [congruence|]. tauto.
  - right. split; auto. rewrite E2. tauto.
  - right. split; auto. tauto.
Qed.

Lemma sat_keeps (a a' : list Z) (l : Z) :
  (val a (Z.abs l) <> 0 -> val a' (Z.abs l) = val a (Z.abs l)) ->
  sat a l = true -> sat a' l = true.
Proof.
  unfold sat, lit_satisfied. intros H Hs.
  rewrite H; auto. intros E. rewrite E in Hs. simpl in Hs.
  now rewrite !andb_false_r in Hs.
Qed.

Lemma clause_satisfied_keeps (a a' c : list Z) :
  (forall v, val a v <> 0 -> val a' v = val a v) ->
  clause_satisfied a c = true -> clause_satisfied a' c = true.
Proof.
  intros H Hs. apply existsb_exists in Hs. destruct Hs as (l & Hl & Hs).
  apply existsb_exists. exists l. split; auto.
  apply (sat_keeps a a' l); auto.
Qed.

Lemma forallb_false_exists {A : Type} (f : A -> bool) (l : list A) :
  forallb f l = false -> exists x, In x l /\ f x = false.
Proof.
  induction l as [|x l IH]; simpl; [discriminate|].
  destruct (f x) eqn:E; simpl; intros H.
  - destruct (IH H) as (y & Hy & Hf). eauto.
  - eauto.
Qed.

Lemma occurs_intro (a : list Z) (cls : list (list Z)) (c : list Z) (l : Z) :
  In c cls -> clause_satisfied a c = false -> In l c -> occurs a cls l = true.
Proof.
  intros Hc Hs Hl. apply existsb_exists. exists c. split; auto.
  rewrite Hs. simpl. apply existsb_exists. exists l. split; auto. apply Z.eqb_refl.
Qed.


Lemma vars_in (n : nat) : forall s v, In v (vars s n) <-> s <= v < s + Z.of_nat n.
Proof.
  induction n as [|n IH]; intros s v; simpl vars.
  - simpl. lia.
  - simpl In. rewrite IH. lia.
Qed.

(** Membership in the list of pure literals. *)
Lemma pure_literals_in (a : list Z) (cls : list (list Z)) (nv x : Z) :
  In x (pure_literals a cls nv) <->
  1 <= Z.abs x <= nv /\ val a (Z.abs x) = 0 /\
  occurs a cls x = true /\ occurs a cls (- x) = false.
Proof.
  unfold pure_literals. rewrite in_flat_map. split.
  - intros (v & Hv & Hx). apply vars_in in Hv. unfold pure_literal in Hx.
    destruct (Z.eqb_spec (val a v) 0) as [E|E]; [|contradiction].
    destruct (occurs a cls v) eqn:Ep, (occurs a cls (- v)) eqn:En;
      simpl in Hx; try contradiction; destruct Hx as [<-|[]].
    + replace (Z.abs v) with v by lia. repeat split; auto; lia.
    + replace (Z.abs (- v)) with v by lia. rewrite Z.opp_involutive.
      repeat split; auto; lia.
  - intros (Hr & Hv & Ho & Hn). exists (Z.abs x). split.
    + apply vars_in. lia.
    + unfold pure_literal. rewrite Hv. simpl.
      destruct (Z_lt_le_dec x 0).
      * replace (Z.abs x) with (- x) by lia. rewrite Z.opp_involutive.
        rewrite Ho, Hn. simpl. left. lia.
      * replace (Z.abs x) with x by lia. rewrite Ho, Hn. simpl. auto.
Qed.

(** Pure-literal safety: assigning pure literals falsifies no clause. *)
Lemma pure_keeps_no_conflict (a1 a2 pl : list Z) (cls : list (list Z)) :
  conflicting a1 cls = false ->
  (forall x, In x pl -> occurs a1 cls (- x) = false) ->
  extends_by pl a1 a2 ->
  conflicting a2 cls = false.
Proof.
  intros Hc Hp He. destruct (conflicting a2 cls) eqn:Hc2; auto. exfalso.
  apply existsb_exists in Hc2. destruct Hc2 as (c & Hin & Hf2).
  assert (Hall : forall l, In l c -> falsified a2 l = true).
  { intros l Hl. unfold clause_falsified in Hf2.
    rewrite forallb_forall in Hf2. auto. }
  assert (Hf1 : clause_falsified a1 c = false).
  { destruct (clause_falsified a1 c) eqn:E; auto.
    assert (conflicting a1 cls = true) by (apply existsb_exists; eauto).
    congruence. }
  assert (Hkeep : forall l, In l c -> sat a1 l = false).
  { intros l Hl. destruct (sat a1 l) eqn:Es; auto.
    specialize (Hall l Hl). unfold falsified in Hall.
    apply andb_true_iff in Hall. destruct Hall as [_ Hs].
    rewrite (sat_keeps a1 a2 l) in Hs; auto.
    intros. now apply (extends_by_keeps pl). }
  assert (Hunsat : clause_satisfied a1 c = false).
  { destruct (clause_satisfied a1 c) eqn:E; auto.
    apply existsb_exists in E. destruct E as (l & Hl & Hs).
    rewrite Hkeep in Hs; auto. }
  apply forallb_false_exists in Hf1. destruct Hf1 as (l & Hl & Hfl).
  specialize (Hall l Hl). specialize (Hkeep l Hl).
  unfold falsified in Hfl, Hall. rewrite Hkeep in Hfl.
  rewrite andb_true_r in Hfl. apply negb_false_iff in Hfl.
  apply andb_true_iff in Hall. destruct Hall as [Hu2 Hs2].
  apply negb_true_iff in Hu2, Hs2. unfold unassigned in Hfl, Hu2.
  apply Z.eqb_eq in Hfl. apply Z.eqb_neq in Hu2.
  destruct He as [_ He]. destruct (He (Z.abs l)) as [E|(_ & Hv & [[Hx E]|[Hx E]])];
    [congruence| |].
  - unfold sat, lit_satisfied in Hs2. rewrite E in Hs2. simpl in Hs2.
    rewrite andb_true_r, andb_false_r, orb_false_r in Hs2.
    assert (l = - Z.abs l) by lia.
    specialize (Hp _ Hx). rewrite <- H in Hp.
    now rewrite (occurs_intro a1 cls c l) in Hp.
  - unfold sat, lit_satisfied in Hs2. rewrite E in Hs2. simpl in Hs2.
    rewrite andb_true_r, andb_false_r in Hs2. simpl in Hs2.
    assert (l = Z.abs l) by lia.
    specialize (Hp _ Hx). rewrite Z.opp_involutive, <- H in Hp.
    now rewrite (occurs_intro a1 cls c l) in Hp.
Qed.

(** ** The loops of solve *)

Lemma solve_units_Ok (p : SATproblem) (L a0 : list Z) :
  forall units a saved res,
    incl units L -> restores saved a0 a -> extends_by L a0 a ->
    solve_units p units a saved = Ok res ->
    match res with
    | inl r =>
        r = a0 /\
        exists a', extends_by L a0 a' /\ conflicting a' (clauses p) = true
    | inr (a1, saved1) =>
        restores saved1 a0 a1 /\ extends_by L a0 a1 /\
        (conflicting a (clauses p) = false -> conflicting a1 (clauses p) = false)
    end.
Proof.
  induction units as [|lit units IH]; simpl; intros a saved res Hi Hr He H.
  - inversion H; subst. auto.
  - assert (Hlit : In lit L) by (apply Hi; now left).
    assert (Hi' : incl units L) by (intros x Hx; apply Hi; now right).
    inv_bind H. apply at_val in E. destruct E as [Hrange ->].
    destruct (Z.eqb_spec (val a (Z.abs lit)) 0) as [Hv|Hv].
    + inv_bind H. apply store_Ok in E. destruct E as [_ ->].
      pose proof (restores_step saved a0 a (Z.abs lit)
                    (if lit >? 0 then 1 else -1) Hr Hrange Hv) as Hr'.
      pose proof (extends_by_step L a0 a lit He Hlit Hrange Hv) as He'.
      inv_bind H. apply checkConflict_Ok in E. subst x.
      destruct (conflicting _ (clauses p)) eqn:Ec.
      * inv_bind H. inversion H; subst.
        destruct Hr' as [_ Hu]. rewrite Hu in E. inversion E; subst.
        split; eauto.
      * specialize (IH _ _ _ Hi' Hr' He' H).
        destruct res as [r|[a1 saved1]]; auto.
        destruct IH as (H1 & H2 & H3). auto.
    + apply (IH _ _ _ Hi' Hr He H).
Qed.

Lemma solve_units_total (p : SATproblem) (a0 : list Z) :
  well_formed p ->
  forall units a saved,
    Forall (in_range a) units -> restores saved a0 a ->
    exists res, solve_units p units a saved = Ok res.
Proof.
  intros Hwf. induction units as [|lit units IH]; simpl; intros a saved Hu Hr; eauto.
  inversion Hu as [|? ? Hlit Hu']; subst.
  rewrite at_val_in by exact Hlit. simpl.
  destruct (Z.eqb_spec (val a (Z.abs lit)) 0) as [Hv|Hv].
  - unfold in_range in Hlit. rewrite store_in by lia. simpl.
    rewrite checkConflict_total by auto. simpl.
    pose proof (restores_step saved a0 a (Z.abs lit)
                  (if lit >? 0 then 1 else -1) Hr Hlit Hv) as Hr'.
    destruct (conflicting _ (clauses p)).
    + destruct Hr' as [_ Hr']. rewrite Hr'. simpl. eauto.
    + apply IH; auto.
      eapply Forall_impl; [|exact Hu']. unfold in_range. intros l.
      now rewrite size_upd.
  - apply IH; auto.
Qed.

Lemma solve_pures_Ok (L a0 base : list Z) :
  forall pl a saved a2 saved2,
    incl pl L -> restores saved a0 a -> extends_by L base a ->
    solve_pures pl a saved = Ok (a2, saved2) ->
    restores saved2 a0 a2 /\ extends_by L base a2.
Proof.
  induction pl as [|lit pl IH]; simpl; intros a saved a2 saved2 Hi Hr He H.
  - inversion H; subst. auto.
  - assert (Hlit : In lit L) by (apply Hi; now left).
    assert (Hi' : incl pl L) by (intros x Hx; apply Hi; now right).
    inv_bind H. apply at_val in E. destruct E as [Hrange ->].
    destruct (Z.eqb_spec (val a (Z.abs lit)) 0) as [Hv|Hv].
    + inv_bind H. apply store_Ok in E. destruct E as [_ ->].
      apply (IH _ _ _ _ Hi') in H; auto.
      * now apply restores_step.
      * now apply extends_by_step.
    + apply (IH _ _ _ _ Hi' Hr He H).
Qed.

Lemma solve_pures_total :
  forall pl a saved,
    Forall (in_range a) pl -> exists res, solve_pures pl a saved = Ok res.
Proof.
  induction pl as [|lit pl IH]; simpl; intros a saved Hu; eauto.
  inversion Hu as [|? ? Hlit Hu']; subst.
  rewrite at_val_in by exact Hlit. simpl.
  destruct (val a (Z.abs lit) =? 0).
  - unfold in_range in Hlit. rewrite store_in by lia. simpl.
    apply IH. eapply Forall_impl; [|exact Hu']. unfold in_range. intros l.
    now rewrite size_upd.
  - apply IH; auto.
Qed.

Lemma solve_next_Ok (nv : Z) (a : list Z) (n : nat) :
  forall k nx,
    solve_next n nv a k = Ok nx ->
    k <= nx /\ (forall v, k <= v < nx -> val a v <> 0) /\
    (nx <= nv -> 1 <= nx <= size a /\ val a nx = 0).
Proof.
  assert (Hbase : forall k nx,
            (if k <=? nv then
               value <- at_ a (k - 1) ;;
               if negb (value =? 0) then OutOfFuel else Ok k
             else Ok k) = Ok nx ->
            k = nx /\ (nx <= nv -> 1 <= nx <= size a /\ val a nx = 0)).
  { intros k nx H. destruct (k <=? nv) eqn:Ek.
    - inv_bind H. apply at_val in E. destruct E as [Hr ->].
      destruct (Z.eqb_spec (val a k) 0); simpl in H; [|discriminate].
      inversion H; subst. auto.
    - inversion H; subst. apply Z.leb_gt in Ek. split; auto. lia. }
  induction n as [|n IH]; intros k nx H.
  - simpl in H. apply Hbase in H. destruct H as [-> H]. repeat split; auto; lia.
  - simpl in H. destruct (k <=? nv) eqn:Ek.
    + inv_bind H. apply at_val in E. destruct E as [Hr ->].
      destruct (Z.eqb_spec (val a k) 0) as [Hv|Hv]; simpl in H.
      * inversion H; subst. repeat split; auto; lia.
      * inv_succ H. apply IH in H. destruct H as (H1 & H2 & H3).
        repeat split; try lia; auto.
        intros v Hv'. destruct (Z.eq_dec v k) as [->|Hne]; auto.
        apply H2. lia.
    + inversion H; subst. apply Z.leb_gt in Ek. repeat split; try lia.
Qed.

Lemma solve_next_total (nv : Z) (a : list Z) (n : nat) :
  forall k,
    1 <= k -> nv <= size a -> nv < INT_MAX -> nv + 1 - k <= Z.of_nat n ->
    exists nx, solve_next n nv a k = Ok nx.
Proof.
  induction n as [|n IH]; intros k Hk Hs Hm Hn; simpl.
  - replace (k <=? nv) with false by (symmetry; apply Z.leb_gt; lia). eauto.
  - destruct (k <=? nv) eqn:Ek; eauto. apply Z.leb_le in Ek.
    rewrite at_val_in by lia. simpl.
    destruct (val a k =? 0); simpl; eauto.
    rewrite int_succ_in by lia. simpl. apply IH; lia.
Qed.

(** The loop never runs out of the iterations [solve] allots to it. *)
Lemma solve_next_fuel (nv : Z) (a : list Z) (n : nat) :
  forall k, nv + 1 - k <= Z.of_nat n -> solve_next n nv a k <> OutOfFuel.
Proof.
  induction n as [|n IH]; intros k Hn; simpl.
  - replace (k <=? nv) with false by (symmetry; apply Z.leb_gt; lia). discriminate.
  - destruct (k <=? nv) eqn:Ek; [|discriminate]. apply Z.leb_le in Ek.
    unfold at_. destruct ((0 <=? k - 1) && (k - 1 <? size a)); [|discriminate].
    destruct (nth_error a (Z.to_nat (k - 1))) as [x|]; simpl; [|discriminate].
    destruct (x =? 0); simpl; [discriminate|].
    unfold int_succ. destruct (k <? INT_MAX); simpl; [|discriminate].
    apply IH; lia.
Qed.

(** ** The runs of solve *)

(** After steps 1 to 3 no clause is falsified, so the two exits
    [return !checkConflict(problem, assignment)] of [solve] return true. *)
Lemma propagated_no_conflict (p : SATproblem) (a a1 a2 : list Z) saved :
  propagated p a a1 a2 saved -> conflicting a2 (clauses p) = false.
Proof.
  intros (_ & units & pl & _ & _ & Hc1 & Hpl & He & _).
  apply findPureLiterals_Ok in Hpl. destruct Hpl as [-> _].
  apply (pure_keeps_no_conflict a1 a2 (pure_literals a1 (clauses p) (numVars p)));
    auto.
  intros x Hx. apply pure_literals_in in Hx. tauto.
Qed.

Lemma propagated_grows (p : SATproblem) (a a1 a2 : list Z) saved :
  propagated p a a1 a2 saved ->
  size a2 = size a /\
  forall v, val a2 v = val a v \/ (val a v = 0 /\ (val a2 v = 1 \/ val a2 v = -1)).
Proof.
  intros (_ & units & pl & _ & H1 & _ & _ & H2 & _).
  eapply extends_by_trans; eauto.
Qed.

(** Every returning call of [solve] is a run. *)
Lemma solve_run (p : SATproblem) (fuel : nat) :
  forall a k b a', solve fuel p a k = Ok (b, a') -> run p a k b a'.
Proof.
  induction fuel as [|fuel IH]; intros a k b a' H; [discriminate|].
  simpl in H.
  inv_bind H. apply checkConflict_Ok in E. subst x.
  destruct (conflicting a (clauses p)) eqn:Hc.
  { inversion H; subst. now apply run_conflict. }
  inv_bind H. rename x into units. rename E into Hunits.
  inv_bind H. rename x into res.
  apply (solve_units_Ok p units a units a [] res (incl_refl _)
           (restores_nil a) (extends_by_refl _ _)) in E.
  destruct res as [r|[a1 saved1]].
  { destruct E as (-> & ax & He & Hcx). inversion H; subst.
    eapply run_unit_conflict; eauto. }
  destruct E as (Hr1 & He1 & Hc1). specialize (Hc1 Hc).
  inv_bind H. rename x into pl. rename E into Hpl.
  inv_bind H. destruct x as [a2 saved].
  apply (solve_pures_Ok pl a a1 pl a1 saved1 a2 saved (incl_refl _) Hr1
           (extends_by_refl _ _)) in E.
  destruct E as [Hr2 He2].
  assert (Hprop : propagated p a a1 a2 saved).
  { split; auto. exists units, pl. auto 10. }
  pose proof (propagated_no_conflict _ _ _ _ _ Hprop) as Hc2.
  destruct (Z.gtb_spec k (numVars p)) as [Ek|Ek].
  { inv_bind H. apply checkConflict_Ok in E. subst x. rewrite Hc2 in H.
    inversion H; subst. eapply run_leaf; eauto. intros v Hv. lia. }
  inv_bind H. rename x into nx. apply solve_next_Ok in E.
  destruct E as (Hk & Hbetween & Hnx).
  destruct (Z.gtb_spec nx (numVars p)) as [Enx|Enx].
  { inv_bind H. apply checkConflict_Ok in E. subst x. rewrite Hc2 in H.
    inversion H; subst. eapply run_leaf; eauto. intros v Hv.
    apply Hbetween. lia. }
  assert (Hle : nx <= numVars p) by lia. destruct (Hnx Hle) as [Hrange Hzero].
  inv_bind H. apply store_Ok in E. destruct E as [_ ->].
  inv_succ H.
  inv_bind H. destruct x as [r1 a4]. apply IH in E.
  destruct r1.
  { inversion H; subst. eapply run_first; eauto. }
  inv_bind H. apply store_Ok in E0. destruct E0 as [_ ->].
  inv_succ H.
  inv_bind H. destruct x as [r2 a6]. apply IH in E0.
  destruct r2.
  { inversion H; subst. eapply run_second; eauto. }
  inv_bind H. apply store_Ok in E1. destruct E1 as [_ ->].
  inv_bind H. inversion H; subst.
  eapply run_exhausted; eauto.
Qed.

(** Backtracking: a run that returns false leaves the assignment as it
    found it. *)
Lemma run_false_restores (p : SATproblem) (a : list Z) (k : Z) (b : bool) (a' : list Z) :
  run p a k b a' -> b = false -> a' = a.
Proof.
  induction 1 as [ | | | | |a k a1 a2 saved nx a4 a6 a' Hp Hk Hr Hb Hz R1 IH1 R2 IH2 Hu];
    intros Hb'; try discriminate; auto.
  rewrite (IH1 eq_refl) in IH2. rewrite (IH2 eq_refl) in Hu.
  rewrite !upd_upd_same in Hu.
  assert (E : upd (Z.to_nat (nx - 1)) 0 a2 = a2).
  { apply val_ext; [apply size_upd|]. intros v Hv.
    destruct (Z.eq_dec nx v) as [<-|Hne].
    - rewrite val_upd_same; auto.
    - rewrite val_upd_other; auto; lia. }
  rewrite E in Hu.
  destruct Hp as (_ & units & pl & _ & _ & _ & _ & _ & [_ Hrest]).
  congruence.
Qed.

Lemma conflicting_false_elim (a : list Z) (cls : list (list Z)) (c : list Z) :
  conflicting a cls = false -> In c cls -> clause_falsified a c = false.
Proof.
  intros H Hc. destruct (clause_falsified a c) eqn:E; auto.
  assert (conflicting a cls = true) by (apply existsb_exists; eauto).
  congruence.
Qed.

(** Success: the assignment left behind is total and satisfies every
    clause, provided the variables below the start index were decided. *)
Lemma run_true_sound (p : SATproblem) (a : list Z) (k : Z) (b : bool) (a' : list Z) :
  run p a k b a' -> b = true ->
  size a = Z.max 0 (numVars p) -> (forall v, 1 <= v < k -> val a v <> 0) ->
  size a' = size a /\
  (forall v, 1 <= v <= numVars p -> val a' v <> 0) /\
  (forall v, val a' v = val a v \/ val a' v = 1 \/ val a' v = -1) /\
  (forall c, In c (clauses p) -> clause_satisfied a' c = true).
Proof.
  induction 1 as
    [ | |a k a1 a2 saved Hp Hall
      |a k a1 a2 saved nx a' Hp Hk Hr Hb Hz R1 IH1
      |a k a1 a2 saved nx a4 a' Hp Hk Hr Hb Hz R1 IH1 R2 IH2
      | ];
    intros Hb' Hs Hlow; try discriminate.
  - (* leaf *)
    destruct (propagated_grows _ _ _ _ _ Hp) as [Hs2 Hg].
    assert (Htot : forall v, 1 <= v <= numVars p -> val a2 v <> 0).
    { intros v Hv. destruct (Z_lt_le_dec v k) as [Hlt|Hge].
      - assert (Hv0 : val a v <> 0) by (apply Hlow; lia).
        destruct (Hg v) as [E|[E _]]; congruence.
      - apply Hall. lia. }
    repeat split; auto.
    + intros v. destruct (Hg v) as [E|[_ E]]; tauto.
    + intros c Hc.
      pose proof (propagated_no_conflict _ _ _ _ _ Hp) as Hc2.
      destruct Hp as (_ & units & pl & _ & [Hs1 _] & _ & Hpl & He2 & _).
      apply findPureLiterals_Ok in Hpl. destruct Hpl as [_ Hrange].
      destruct (clause_satisfied a1 c) eqn:Es1.
      * apply (clause_satisfied_keeps a1); auto.
        intros v. apply (extends_by_keeps pl); auto.
      * specialize (Hrange c Hc Es1). rewrite Forall_forall in Hrange.
        pose proof (conflicting_false_elim _ _ _ Hc2 Hc) as Hf.
        apply forallb_false_exists in Hf. destruct Hf as (l & Hl & Hf).
        apply existsb_exists. exists l. split; auto.
        unfold falsified in Hf. apply andb_false_iff in Hf.
        destruct Hf as [Hf|Hf]; [|now apply negb_false_iff in Hf].
        apply negb_false_iff in Hf. unfold unassigned in Hf. apply Z.eqb_eq in Hf.
        specialize (Hrange l Hl). unfold in_range in Hrange.
        exfalso. apply (Htot (Z.abs l)); auto. lia.
  - (* first branch *)
    destruct (propagated_grows _ _ _ _ _ Hp) as [Hs2 Hg].
    destruct IH1 as (H1 & H2 & H3 & H4); auto.
    + rewrite size_upd. congruence.
    + intros v Hv. destruct (Z.eq_dec nx v) as [<-|Hne].
      * rewrite val_upd_same by auto. discriminate.
      * rewrite val_upd_other by lia.
        destruct (Z_lt_le_dec v k) as [Hlt|Hge]; [|apply Hb; lia].
        assert (Hv0 : val a v <> 0) by (apply Hlow; lia).
        destruct (Hg v) as [E|[E _]]; congruence.
    + rewrite size_upd in H1. repeat split; auto; try congruence.
      intros v. destruct (H3 v) as [E|E]; auto.
      destruct (Z.eq_dec nx v) as [<-|Hne].
      * rewrite val_upd_same in E by auto. auto.
      * rewrite val_upd_other in E by lia. rewrite E.
        destruct (Hg v) as [E'|[_ E']]; tauto.
  - (* second branch *)
    destruct (propagated_grows _ _ _ _ _ Hp) as [Hs2 Hg].
    pose proof (run_false_restores _ _ _ _ _ R1 eq_refl) as ->.
    rewrite upd_upd_same in *.
    destruct IH2 as (H1 & H2 & H3 & H4); auto.
    + rewrite size_upd. congruence.
    + intros v Hv. destruct (Z.eq_dec nx v) as [<-|Hne].
      * rewrite val_upd_same by auto. discriminate.
      * rewrite val_upd_other by lia.
        destruct (Z_lt_le_dec v k) as [Hlt|Hge]; [|apply Hb; lia].
        assert (Hv0 : val a v <> 0) by (apply Hlow; lia).
        destruct (Hg v) as [E|[E _]]; congruence.
    + rewrite size_upd in H1. repeat split; auto; try congruence.
      intros v. destruct (H3 v) as [E|E]; auto.
      destruct (Z.eq_dec nx v) as [<-|Hne].
      * rewrite val_upd_same in E by auto. auto.
      * rewrite val_upd_other in E by lia. rewrite E.
        destruct (Hg v) as [E'|[_ E']]; tauto.
Qed.

(** ** Models *)

Lemma gtb_true (x y : Z) : y < x -> (x >? y) = true.
Proof. intros H. destruct (Z.gtb_spec x y); auto; lia. Qed.

Lemma gtb_false (x y : Z) : x <= y -> (x >? y) = false.
Proof. intros H. destruct (Z.gtb_spec x y); auto; lia. Qed.

Lemma falsified_agrees (m : Z -> bool) (a : list Z) (l : Z) :
  agrees m a -> falsified a l = true -> lit_true m l = false.
Proof.
  intros Ha Hf. unfold falsified, unassigned, sat, lit_satisfied in Hf.
  apply andb_true_iff in Hf. destruct Hf as [Hu Hs].
  apply negb_true_iff in Hu, Hs. apply Z.eqb_neq in Hu.
  destruct (Ha (Z.abs l)) as [Hpos Hneg]. unfold lit_true.
  destruct (Z.gtb_spec l 0) as [Hl|Hl].
  - simpl in Hs. destruct (Z.gtb_spec (val a (Z.abs l)) 0); simpl in Hs;
      [discriminate|]. apply Hneg. lia.
  - destruct (Z.eq_dec l 0) as [->|Hl0]; [simpl in Hu; contradiction|].
    replace (l <? 0) with true in Hs by (symmetry; apply Z.ltb_lt; lia).
    simpl in Hs. apply Z.ltb_ge in Hs. rewrite Hpos by lia. reflexivity.
Qed.

Lemma sat_agrees (m : Z -> bool) (a : list Z) (l : Z) :
  agrees m a -> sat a l = true -> lit_true m l = true.
Proof.
  intros Ha Hs. unfold sat, lit_satisfied in Hs.
  destruct (Ha (Z.abs l)) as [Hpos Hneg]. unfold lit_true.
  apply orb_true_iff in Hs. destruct Hs as [Hs|Hs];
    apply andb_true_iff in Hs; destruct Hs as [H1 H2].
  - rewrite H1. apply Hpos. destruct (Z.gtb_spec (val a (Z.abs l)) 0); [lia|discriminate].
  - apply Z.ltb_lt in H1, H2.
    replace (l >? 0) with false by (symmetry; apply gtb_false; lia).
    rewrite Hneg by lia. reflexivity.
Qed.

Lemma conflict_no_model (m : Z -> bool) (a : list Z) (cls : list (list Z)) :
  agrees m a -> conflicting a cls = true -> models m cls = false.
Proof.
  intros Ha Hc. apply existsb_exists in Hc. destruct Hc as (c & Hc & Hf).
  destruct (models m cls) eqn:Hm; auto. exfalso.
  unfold models in Hm. rewrite forallb_forall in Hm. specialize (Hm c Hc).
  apply existsb_exists in Hm. destruct Hm as (l & Hl & Ht).
  unfold clause_falsified in Hf. rewrite forallb_forall in Hf.
  rewrite (falsified_agrees m a l Ha (Hf l Hl)) in Ht. discriminate.
Qed.

(** A unit literal is true in every model that agrees with the assignment. *)
Lemma unit_forced (m : Z -> bool) (p : SATproblem) (a units : list Z) :
  agrees m a -> models m (clauses p) = true ->
  findUnitClauses p a = Ok units ->
  forall l, In l units -> lit_true m l = true.
Proof.
  intros Ha Hm Hu l Hl.
  destruct (findUnit_clauses_Ok _ _ _ _ Hu l Hl) as [[]|(c & Hc & _ & Hs & Hul)].
  unfold models in Hm. rewrite forallb_forall in Hm. specialize (Hm c Hc).
  apply existsb_exists in Hm. destruct Hm as (l' & Hl' & Ht).
  assert (Hin : In l' (unassigned_lits a c)).
  { apply filter_In. split; auto.
    destruct (unassigned a l') eqn:Eu; auto.
    assert (Hf : falsified a l' = true).
    { unfold falsified. rewrite Eu. simpl.
      destruct (sat a l') eqn:Es; auto.
      assert (clause_satisfied a c = true) by (apply existsb_exists; eauto).
      congruence. }
    rewrite (falsified_agrees m a l' Ha Hf) in Ht. discriminate. }
  rewrite Hul in Hin. destruct Hin as [<-|[]]. exact Ht.
Qed.

Lemma agrees_extends (m : Z -> bool) (L a a' : list Z) :
  agrees m a -> (forall l, In l L -> lit_true m l = true) ->
  extends_by L a a' -> agrees m a'.
Proof.
  intros Ha HL [_ He] v.
  destruct (He v) as [E|(E & Hv & [[Hin E']|[Hin E']])].
  - rewrite E. apply Ha.
  - specialize (HL _ Hin). unfold lit_true in HL.
    replace (v >? 0) with true in HL by (symmetry; apply gtb_true; lia).
    replace (Z.abs v) with v in HL by lia. rewrite E'. split; auto; lia.
  - specialize (HL _ Hin). unfold lit_true in HL.
    replace (- v >? 0) with false in HL by (symmetry; apply gtb_false; lia).
    replace (Z.abs (- v)) with v in HL by lia. rewrite E'.
    apply negb_true_iff in HL. split; auto; lia.
Qed.

Lemma agrees_override (m : Z -> bool) (a : list Z) : agrees (override m a) a.
Proof.
  intros v. unfold override. split; intros H.
  - now replace (val a v >? 0) with true by (symmetry; apply gtb_true; lia).
  - replace (val a v >? 0) with false by (symmetry; apply gtb_false; lia).
    now replace (val a v <? 0) with true by (symmetry; apply Z.ltb_lt; lia).
Qed.

(** Pure-literal elimination keeps satisfiability: a model that agrees with
    the assignment before, overridden by the assignment after. *)
Lemma pure_model (m : Z -> bool) (a1 a2 pl : list Z) (cls : list (list Z)) :
  agrees m a1 -> models m cls = true ->
  (forall x, In x pl -> occurs a1 cls (- x) = false) ->
  extends_by pl a1 a2 ->
  models (override m a2) cls = true.
Proof.
  intros Ha Hm Hp He. unfold models in *. rewrite forallb_forall in *.
  intros c Hc. specialize (Hm c Hc).
  destruct (clause_satisfied a1 c) eqn:Es.
  - apply existsb_exists in Es. destruct Es as (l & Hl & Hs).
    apply existsb_exists. exists l. split; auto.
    apply (sat_agrees _ a2); [apply agrees_override|].
    apply (sat_keeps a1); auto. intros. now apply (extends_by_keeps pl).
  - apply existsb_exists in Hm. destruct Hm as (l & Hl & Ht).
    apply existsb_exists. exists l. split; auto.
    assert (Hun : val a1 (Z.abs l) = 0).
    { destruct (Z.eq_dec (val a1 (Z.abs l)) 0) as [E|E]; auto. exfalso.
      assert (Hs : sat a1 l = false).
      { destruct (sat a1 l) eqn:Hs; auto.
        assert (clause_satisfied a1 c = true) by (apply existsb_exists; eauto).
        congruence. }
      assert (Hf : falsified a1 l = true).
      { unfold falsified, unassigned. rewrite Hs.
        apply Z.eqb_neq in E. now rewrite E. }
      rewrite (falsified_agrees m a1 l Ha Hf) in Ht. discriminate. }
    destruct He as [_ He].
    destruct (He (Z.abs l)) as [E|(_ & Hv & [[Hin E]|[Hin E]])].
    + unfold lit_true, override in *. rewrite E, Hun. exact Ht.
    + specialize (Hp _ Hin).
      assert (l = Z.abs l).
      { destruct (Z_lt_le_dec l 0); [|lia]. exfalso.
        replace (- Z.abs l) with l in Hp by lia.
        now rewrite (occurs_intro a1 cls c l) in Hp. }
      unfold lit_true, override. rewrite E. simpl.
      now replace (l >? 0) with true by (symmetry; apply gtb_true; lia).
    + specialize (Hp _ Hin). rewrite Z.opp_involutive in Hp.
      assert (l = - Z.abs l).
      { destruct (Z_lt_le_dec l 0); [lia|]. exfalso.
        replace (Z.abs l) with l in Hp by lia.
        now rewrite (occurs_intro a1 cls c l) in Hp. }
      unfold lit_true, override. rewrite E. simpl.
      now replace (l >? 0) with false by (symmetry; apply gtb_false; lia).
Qed.

Lemma agrees_upd (m : Z -> bool) (a : list Z) (nx x : Z) :
  agrees m a -> 1 <= nx ->
  (0 < x -> m nx = true) -> (x < 0 -> m nx = false) ->
  agrees m (upd (Z.to_nat (nx - 1)) x a).
Proof.
  intros Ha Hn Hp Hm v. destruct (Z.eq_dec nx v) as [<-|Hne].
  - destruct (Z_le_gt_dec nx (size a)).
    + rewrite val_upd_same by lia. auto.
    + rewrite val_outside by (rewrite size_upd; lia). lia.
  - rewrite val_upd_other by lia. apply Ha.
Qed.

(** Failure: no model agrees with the assignment at the call. *)
Lemma run_false_complete (p : SATproblem) (a : list Z) (k : Z) (b : bool) (a' : list Z) :
  run p a k b a' -> b = false ->
  forall m, agrees m a -> models m (clauses p) = false.
Proof.
  induction 1 as
    [ a k Hc
    | a k units ax Hc Hu He Hcx
    | | |
    | a k a1 a2 saved nx a4 a6 a' Hp Hk Hr Hb Hz R1 IH1 R2 IH2 Hu ];
    intros Hb' m Ha; try discriminate.
  - now apply (conflict_no_model m a).
  - destruct (models m (clauses p)) eqn:Hm; auto.
    rewrite <- (conflict_no_model m ax (clauses p)); auto.
    apply (agrees_extends m units a); auto.
    now apply (unit_forced m p a).
  - destruct (models m (clauses p)) eqn:Hm; auto. exfalso.
    pose proof (run_false_restores _ _ _ _ _ R1 eq_refl) as E4. subst a4.
    rewrite upd_upd_same in *.
    destruct Hp as (_ & units & pl & Hunits & He1 & _ & Hpl & He2 & _).
    assert (Ha1 : agrees m a1).
    { apply (agrees_extends m units a); auto. now apply (unit_forced m p a). }
    apply findPureLiterals_Ok in Hpl. destruct Hpl as [-> _].
    assert (Hm' : models (override m a2) (clauses p) = true).
    { apply (pure_model m a1 a2 (pure_literals a1 (clauses p) (numVars p))); auto.
      intros x Hx. apply pure_literals_in in Hx. tauto. }
    pose proof (agrees_override m a2) as Ha2.
    destruct (override m a2 nx) eqn:Em.
    + rewrite (IH1 eq_refl (override m a2)) in Hm'; [discriminate|].
      apply agrees_upd; auto; [lia|intros; lia].
    + rewrite (IH2 eq_refl (override m a2)) in Hm'; [discriminate|].
      apply agrees_upd; auto; [lia|intros; lia].
Qed.

(** ** Every call returns *)

Lemma forced_literal_in (a c : list Z) (l : Z) :
  In l (forced_literal a c) ->
  clause_satisfied a c = false /\ unassigned_lits a c = [l].
Proof.
  unfold forced_literal. destruct (clause_satisfied a c); [contradiction|].
  destruct (unassigned_lits a c) as [|x [|y t]]; simpl; try contradiction.
  intros [<-|[]]. auto.
Qed.

Lemma unit_literals_in_range (a : list Z) (cls : list (list Z)) :
  Forall (Forall (in_range a)) cls -> Forall (in_range a) (unit_literals a cls).
Proof.
  intros H. apply Forall_forall. intros l Hl.
  apply in_flat_map in Hl. destruct Hl as (c & Hc & Hl).
  apply forced_literal_in in Hl. destruct Hl as [_ Hl].
  rewrite Forall_forall in H. specialize (H c Hc). rewrite Forall_forall in H.
  apply H. assert (Hin : In l (unassigned_lits a c)) by (rewrite Hl; now left).
  apply filter_In in Hin. tauto.
Qed.

Lemma well_formed_in_range (p : SATproblem) (a : list Z) :
  well_formed p -> numVars p <= size a -> Forall (Forall (in_range a)) (clauses p).
Proof.
  intros Hwf Hs. apply Forall_forall. intros c Hc. apply Forall_forall. intros l Hl.
  specialize (Hwf c Hc l Hl). unfold in_range. lia.
Qed.

Lemma upd_zero_id (a : list Z) (nx : Z) :
  1 <= nx <= size a -> val a nx = 0 -> upd (Z.to_nat (nx - 1)) 0 a = a.
Proof.
  intros Hr Hz. apply val_ext; [apply size_upd|]. intros v Hv.
  destruct (Z.eq_dec nx v) as [<-|Hne].
  - rewrite val_upd_same; auto.
  - rewrite val_upd_other; auto; lia.
Qed.

Lemma solve_returns (p : SATproblem) :
  well_formed p -> numVars p < INT_MAX ->
  forall fuel a k,
    size a = numVars p -> 1 <= k ->
    (Z.to_nat (numVars p + 1 - k) < fuel)%nat ->
    exists b a', solve fuel p a k = Ok (b, a').
Proof.
  intros Hwf Hmax. induction fuel as [|fuel IH]; intros a k Hs Hk Hf; [lia|].
  pose proof (size_nonneg a) as Hnv.
  simpl. rewrite checkConflict_total by auto. simpl.
  destruct (conflicting a (clauses p)) eqn:Hc; [eauto|].
  unfold findUnitClauses.
  rewrite findUnit_clauses_total by (apply well_formed_in_range; auto; lia).
  simpl.
  assert (Hur : Forall (in_range a) (unit_literals a (clauses p))).
  { apply unit_literals_in_range, well_formed_in_range; auto; lia. }
  destruct (solve_units_total p a Hwf _ a [] Hur (restores_nil a)) as [res Hres].
  rewrite Hres. simpl.
  apply (solve_units_Ok p _ a _ a [] res (incl_refl _)
           (restores_nil a) (extends_by_refl _ _)) in Hres.
  destruct res as [r|[a1 saved1]]; [eauto|].
  destruct Hres as (Hr1 & [Hs1 He1] & _).
  rewrite findPureLiterals_total by (auto; lia). simpl.
  set (pl := pure_literals a1 (clauses p) (numVars p)).
  assert (Hpr : Forall (in_range a1) pl).
  { apply Forall_forall. intros x Hx. apply pure_literals_in in Hx.
    unfold in_range. lia. }
  destruct (solve_pures_total pl a1 saved1 Hpr) as [[a2 saved] Hres].
  rewrite Hres. simpl.
  apply (solve_pures_Ok pl a a1 pl a1 saved1 a2 saved (incl_refl _) Hr1
           (extends_by_refl _ _)) in Hres.
  destruct Hres as ([_ Hr2] & [Hs2 _]).
  destruct (k >? numVars p).
  { rewrite checkConflict_total by auto. simpl. eauto. }
  destruct (solve_next_total (numVars p) a2
              (Z.to_nat (numVars p + 1 - k)) k) as [nx Hnx]; try lia.
  rewrite Hnx. simpl. apply solve_next_Ok in Hnx. destruct Hnx as (Hkn & _ & Hnx).
  destruct (Z.gtb_spec nx (numVars p)) as [Hgt|Hle].
  { rewrite checkConflict_total by auto. simpl. eauto. }
  destruct (Hnx Hle) as [Hrange Hzero].
  rewrite store_in by lia. simpl.
  rewrite int_succ_in by lia. simpl.
  destruct (IH (upd (Z.to_nat (nx - 1)) 1 a2) (nx + 1)) as (r1 & a4 & E1);
    try lia.
  { rewrite size_upd. lia. }
  rewrite E1. simpl. destruct r1; [eauto|].
  apply solve_run in E1. apply run_false_restores in E1; auto. subst a4.
  rewrite store_in by (rewrite size_upd; lia). simpl.
  rewrite upd_upd_same.
  destruct (IH (upd (Z.to_nat (nx - 1)) (-1) a2) (nx + 1)) as (r2 & a6 & E2);
    try lia.
  { rewrite size_upd. lia. }
  rewrite E2. simpl. destruct r2; [eauto|].
  apply solve_run in E2. apply run_false_restores in E2; auto. subst a6.
  rewrite store_in by (rewrite size_upd; lia). simpl.
  rewrite upd_upd_same, upd_zero_id by auto.
  rewrite Hr2. simpl. eauto.
Qed.

(** ** The recursion depth *)

Lemma bind_within {A B : Type} (r : result A) (k : A -> result B) :
  within_fuel r -> (forall x, r = Ok x -> within_fuel (k x)) ->
  within_fuel (bind r k).
Proof.
  unfold within_fuel. destruct r; simpl; intros H1 H2; auto; discriminate.
Qed.

Lemma at_within {A : Type} (v : list A) (i : Z) : within_fuel (at_ v i).
Proof.
  unfold within_fuel, at_. destruct (_ && _); [|discriminate].
  destruct (nth_error v (Z.to_nat i)); discriminate.
Qed.

Lemma store_within {A : Type} (v : list A) (i : Z) (x : A) : within_fuel (store v i x).
Proof. unfold within_fuel, store. destruct (_ && _); discriminate. Qed.

Lemma vector_new_within {A : Type} (n : Z) (x : A) : within_fuel (vector_new n x).
Proof. unfold within_fuel, vector_new. destruct (n <? 0); discriminate. Qed.

Lemma Ok_within {A : Type} (x : A) : within_fuel (Ok x).
Proof. discriminate. Qed.

Lemma int_succ_within (x : Z) : within_fuel (int_succ x).
Proof. unfold within_fuel, int_succ. destruct (x <? INT_MAX); discriminate. Qed.

Create HintDb fuel.

#[local] Hint Resolve at_within store_within vector_new_within Ok_within
  int_succ_within : fuel.

Ltac step_within :=
  repeat first
    [ apply Ok_within
    | apply bind_within; [auto with fuel | intros ? ?]
    | match goal with
      | |- within_fuel (if ?b then _ else _) => destruct b
      | |- within_fuel (match ?x with (_, _) => _ end) => destruct x
      | |- within_fuel (let '(_, _) := ?x in _) => destruct x
      end ].

Lemma checkConflict_clause_within (a c : list Z) :
  within_fuel (checkConflict_clause a c).
Proof. induction c as [|l c IH]; simpl; step_within; auto. Qed.

Lemma checkConflict_within (p : SATproblem) (a : list Z) :
  within_fuel (checkConflict p a).
Proof.
  unfold checkConflict. induction (clauses p) as [|c cls IH]; simpl; step_within; auto.
  apply checkConflict_clause_within.
Qed.

Lemma findUnit_clause_within (a c : list Z) :
  forall u, within_fuel (findUnit_clause a c u).
Proof. induction c as [|l c IH]; simpl; intros u; step_within; auto. Qed.

Lemma findUnitClauses_within (p : SATproblem) (a : list Z) :
  within_fuel (findUnitClauses p a).
Proof.
  unfold findUnitClauses. generalize (@nil Z).
  induction (clauses p) as [|c cls IH]; simpl; intros acc; step_within; auto.
  apply findUnit_clause_within.
Qed.

Lemma pure_satisfied_within (a c : list Z) : within_fuel (pure_satisfied a c).
Proof. induction c as [|l c IH]; simpl; step_within; auto. Qed.

Lemma pure_mark_within (a c : list Z) :
  forall pos neg, within_fuel (pure_mark a c pos neg).
Proof. induction c as [|l c IH]; simpl; intros pos neg; step_within; auto. Qed.

Lemma pure_clauses_within (a : list Z) (cls : list (list Z)) :
  forall pos neg, within_fuel (pure_clauses cls a pos neg).
Proof.
  induction cls as [|c cls IH]; simpl; intros pos neg; step_within; auto.
  - apply pure_satisfied_within.
  - apply pure_mark_within.
Qed.

Lemma pure_collect_within (a : list Z) (pos neg : list bool) (n : nat) :
  forall var acc, within_fuel (pure_collect n var a pos neg acc).
Proof. induction n as [|n IH]; simpl; intros var acc; step_within; auto. Qed.

Lemma findPureLiterals_within (p : SATproblem) (a : list Z) :
  within_fuel (findPureLiterals p a).
Proof.
  unfold findPureLiterals. step_within.
  - apply pure_clauses_within.
  - apply pure_collect_within.
Qed.

Lemma undo_within (saved : list (Z * Z)) :
  forall a, within_fuel (undo saved a).
Proof. induction saved as [|[f s] saved IH]; simpl; intros a; step_within; auto. Qed.

Lemma solve_units_within (p : SATproblem) (units : list Z) :
  forall a saved, within_fuel (solve_units p units a saved).
Proof.
  induction units as [|l units IH]; simpl; intros a saved; step_within; auto.
  - apply checkConflict_within.
  - apply undo_within.
Qed.

Lemma solve_pures_within (pl : list Z) :
  forall a saved, within_fuel (solve_pures pl a saved).
Proof. induction pl as [|l pl IH]; simpl; intros a saved; step_within; auto. Qed.

Lemma solve_next_from (nv : Z) (a : list Z) (n : nat) :
  forall k nx, solve_next n nv a k = Ok nx -> nx <= nv -> 1 <= k.
Proof.
  induction n as [|n IH]; simpl; intros k nx H Hle.
  - destruct (Z.leb_spec k nv); [|inversion H; lia].
    inv_bind H. apply at_val in E. lia.
  - destruct (Z.leb_spec k nv); [|inversion H; lia].
    inv_bind H. apply at_val in E. lia.
Qed.

(** Whatever the problem, the vector and the start index, [solve] never
    needs more than [numVars + 1 - max(1, startIndex)] nested recursive
    calls. *)
Lemma solve_depth_bounded (p : SATproblem) :
  forall fuel a k,
    (Z.to_nat (numVars p + 1 - Z.max 1 k) < fuel)%nat ->
    within_fuel (solve fuel p a k).
Proof.
  induction fuel as [|fuel IH]; intros a k Hf; [lia|].
  simpl. apply bind_within; [apply checkConflict_within|]. intros c _.
  destruct c; [apply Ok_within|].
  apply bind_within; [apply findUnitClauses_within|]. intros units _.
  apply bind_within; [apply solve_units_within|]. intros [r|[a1 saved1]] _;
    [apply Ok_within|].
  apply bind_within; [apply findPureLiterals_within|]. intros pl _.
  apply bind_within; [apply solve_pures_within|]. intros [a2 saved] _.
  destruct (k >? numVars p).
  { apply bind_within; [apply checkConflict_within|]. intros; apply Ok_within. }
  apply bind_within; [apply solve_next_fuel; lia|]. intros nx Hnx.
  destruct (Z.gtb_spec nx (numVars p)) as [Hgt|Hle].
  { apply bind_within; [apply checkConflict_within|]. intros; apply Ok_within. }
  pose proof (solve_next_from _ _ _ _ _ Hnx Hle) as Hk.
  apply solve_next_Ok in Hnx. destruct Hnx as (Hkn & _).
  assert (Hrec : forall a0, within_fuel (solve fuel p a0 (nx + 1))).
  { intros a0. apply IH. lia. }
  apply bind_within; [apply store_within|]. intros a3 _.
  apply bind_within; [apply int_succ_within|]. intros next1 E1.
  apply int_succ_Ok in E1. destruct E1 as [_ ->].
  apply bind_within; [apply Hrec|]. intros [r1 a4] _.
  destruct r1; [apply Ok_within|].
  apply bind_within; [apply store_within|]. intros a5 _.
  apply bind_within; [apply int_succ_within|]. intros next2 E2.
  apply int_succ_Ok in E2. destruct E2 as [_ ->].
  apply bind_within; [apply Hrec|]. intros [r2 a6] _.
  destruct r2; [apply Ok_within|].
  apply bind_within; [apply store_within|]. intros a7 _.
  apply bind_within; [apply undo_within|]. intros; apply Ok_within.
Qed.

(** ** What the parser does guarantee *)

Lemma insert_sorted_in (x : Z) (l : list Z) (y : Z) :
  In y (insert_sorted x l) -> y = x \/ In y l.
Proof.
  induction l as [|h t IH]; simpl.
  - intros [<-|[]]. auto.
  - destruct (x <=? h); simpl.
    + intros [<-|[<-|H]]; auto.
    + intros [<-|H]; auto. destruct (IH H); auto.
Qed.

Lemma insert_sorted_sorted (x : Z) (l : list Z) :
  StronglySorted Z.le l -> StronglySorted Z.le (insert_sorted x l).
Proof.
  induction 1 as [|h t Ht IH Hh]; simpl.
  - constructor; constructor.
  - destruct (Z.leb_spec x h).
    + constructor; [constructor; auto|]. constructor; auto.
      eapply Forall_impl; [|exact Hh]. intros; lia.
    + constructor; auto. apply Forall_forall. intros y Hy.
      apply insert_sorted_in in Hy. destruct Hy as [->|Hy]; [lia|].
      rewrite Forall_forall in Hh. auto.
Qed.

Lemma sort_sorted (l : list Z) : StronglySorted Z.le (sort l).
Proof.
  induction l as [|x t IH]; simpl; [constructor|].
  now apply insert_sorted_sorted.
Qed.

Lemma unique_in (l : list Z) (z : Z) : In z (unique l) -> In z l.
Proof.
  induction l as [|x t IH]; simpl; auto.
  destruct t as [|y t'].
  - auto.
  - destruct (x =? y).
    + intros H. right. auto.
    + intros [<-|H]; auto.
Qed.

Lemma unique_strict (l : list Z) :
  StronglySorted Z.le l -> StronglySorted Z.lt (unique l).
Proof.
  induction 1 as [|x t Ht IH Hx]; [constructor|].
  destruct t as [|y t'].
  - simpl. constructor; constructor.
  - change (unique (x :: y :: t')) with
      (if x =? y then unique (y :: t') else x :: unique (y :: t')).
    destruct (Z.eqb_spec x y) as [->|Hne]; auto.
    constructor; auto. apply Forall_forall. intros z Hz.
    apply unique_in in Hz.
    inversion Ht as [|? ? _ Hy]; subst.
    inversion Hx as [|? ? Hxy Hx']; subst.
    rewrite Forall_forall in Hy.
    destruct Hz as [<-|Hz]; [lia|]. specialize (Hy z Hz). lia.
Qed.

Lemma strictly_sorted_NoDup (l : list Z) : StronglySorted Z.lt l -> NoDup l.
Proof.
  induction 1 as [|x t Ht IH Hx]; constructor; auto.
  intros Hin. rewrite Forall_forall in Hx. specialize (Hx x Hin). lia.
Qed.

(** A scan that reports no tautology found no complementary neighbours. *)
Lemma tautology_loop_false (c : list Z) (bound : Z) :
  forall fuel i,
    tautology_loop fuel c bound i = Ok false ->
    forall j, i <= j < bound -> nth (Z.to_nat j) c 0 <> - nth (Z.to_nat (j + 1)) c 0.
Proof.
  induction fuel as [|fuel IH]; simpl; intros i H j Hj.
  - destruct (Z.ltb_spec i bound); [discriminate|lia].
  - destruct (Z.ltb_spec i bound); [|lia].
    inv_bind H. inv_bind H.
    apply (at_Ok _ _ _ 0) in E, E0. destruct E as [Hi ->], E0 as [Hi' ->].
    destruct (Z.eqb_spec (nth (Z.to_nat i) c 0) (- nth (Z.to_nat (i + 1)) c 0));
      [discriminate|].
    destruct (Z.eq_dec i j) as [<-|Hne]; auto.
    apply (IH _ H). lia.
Qed.

Lemma parse_line_stored (st st' : parser) (line : string) :
  Forall stored_ok (clauses (problem_of st)) ->
  parse_line st line = Ok st' ->
  Forall stored_ok (clauses (problem_of st')).
Proof.
  intros Hst H. unfold parse_line in H.
  destruct line as [|ch rest]; [inversion H; subst; auto|].
  destruct (Ascii.eqb ch "c"); [inversion H; subst; auto|].
  destruct (Ascii.eqb ch "p").
  { destruct (extract_int _) as [iss stored]. inversion H; subst. auto. }
  destruct (negb (headerFound st)); [inversion H; subst; auto|].
  inv_bind H. destruct x as [nv raw]. inv_bind H. rename x into tautology.
  destruct tautology; simpl in H; inversion H; subst; simpl; auto.
  apply Forall_app. split; auto. constructor; [|constructor].
  split; [|split].
  - apply unique_strict, sort_sorted.
  - intros Hnil. rewrite Hnil in E0. vm_compute in E0. discriminate.
  - intros j Hj. unfold is_tautology in E0.
    apply (tautology_loop_false _ _ _ _ E0). lia.
Qed.

Lemma parse_lines_stored (lines : list string) :
  forall st st',
    Forall stored_ok (clauses (problem_of st)) ->
    parse_lines lines st = Ok st' ->
    Forall stored_ok (clauses (problem_of st')).
Proof.
  induction lines as [|line lines IH]; simpl; intros st st' Hst H.
  - inversion H; subst; auto.
  - inv_bind H. apply (IH x st'); auto.
    now apply (parse_line_stored st x line).
Qed.

Lemma parseDIMACS_stored (input : string) (p : SATproblem) :
  parseDIMACS input = Ok p -> Forall stored_ok (clauses p).
Proof.
  unfold parseDIMACS. intros H. inv_bind H. inversion H; subst.
  apply (parse_lines_stored (getlines input)
           (mkParser (mkSATproblem 0 []) false) x); auto.
Qed.


(** ** The driver on the all-unassigned vector *)

Lemma lits_inb_ok (n : Z) (cls : list (list Z)) : lits_inb n cls = true -> lits_in n cls.
Proof.
  unfold lits_inb. intros H c Hc l Hl.
  rewrite forallb_forall in H. specialize (H c Hc).
  rewrite forallb_forall in H. specialize (H l Hl).
  apply andb_true_iff in H. destruct H as [H1 H2].
  apply Z.leb_le in H1, H2. lia.
Qed.

Lemma well_formedb_ok (p : SATproblem) : well_formedb p = true -> well_formed p.
Proof. apply lits_inb_ok. Qed.

Lemma val_repeat_zero (n : nat) (v : Z) : val (repeat 0 n) v = 0.
Proof.
  unfold val. destruct (1 <=? v); auto.
  generalize (Z.to_nat (v - 1)). induction n as [|n IH]; intros [|m]; simpl; auto.
Qed.

Lemma size_unassigned_vector (p : SATproblem) :
  size (unassigned_vector p) = Z.max 0 (numVars p).
Proof. unfold size, unassigned_vector. rewrite repeat_length. lia. Qed.

Lemma total_of_val (t : list Z) :
  (forall v, 1 <= v <= size t -> val t v = 1 \/ val t v = -1) -> total t.
Proof.
  intros H. apply Forall_forall. intros x Hx.
  destruct (In_nth t x 0 Hx) as (n & Hn & <-).
  specialize (H (Z.of_nat n + 1)). unfold val in H.
  replace (1 <=? Z.of_nat n + 1) with true in H by (symmetry; apply Z.leb_le; lia).
  replace (Z.to_nat (Z.of_nat n + 1 - 1)) with n in H by lia.
  apply H. unfold size. lia.
Qed.

Lemma clause_satisfied_iff (t c : list Z) :
  clause_satisfied t c = true <-> exists l, In l c /\ sat t l = true.
Proof. apply existsb_exists. Qed.

(** What a successful call on the all-unassigned vector leaves behind. *)
Lemma solve_true_from_start (p : SATproblem) (fuel : nat) (a' : list Z) :
  solve fuel p (unassigned_vector p) 1 = Ok (true, a') ->
  size a' = Z.max 0 (numVars p) /\ total a' /\ satisfies a' p.
Proof.
  intros H. apply solve_run in H.
  destruct (run_true_sound _ _ _ _ _ H eq_refl (size_unassigned_vector p))
    as (Hs & Hnz & Hv & Hsat).
  { intros v Hv. lia. }
  rewrite size_unassigned_vector in Hs. repeat split; auto.
  - apply total_of_val. intros v Hr.
    destruct (Hv v) as [E|E]; auto. exfalso.
    unfold unassigned_vector in E. rewrite val_repeat_zero in E.
    apply (Hnz v); auto. lia.
  - intros c Hc. apply clause_satisfied_iff. auto.
Qed.

(** A satisfying vector read as a model. *)
Lemma satisfies_models (t : list Z) (p : SATproblem) :
  satisfies t p -> models (fun v => val t v >? 0) (clauses p) = true.
Proof.
  intros H. unfold models. apply forallb_forall. intros c Hc.
  destruct (H c Hc) as (l & Hl & Hs). apply existsb_exists. exists l. split; auto.
  unfold sat, lit_satisfied in Hs. unfold lit_true.
  apply orb_true_iff in Hs. destruct Hs as [Hs|Hs];
    apply andb_true_iff in Hs; destruct Hs as [H1 H2].
  - now rewrite H1.
  - apply Z.ltb_lt in H1, H2.
    rewrite (gtb_false l 0), (gtb_false (val t (Z.abs l)) 0) by lia. reflexivity.
Qed.


(** C2.  Soundness of the model.  Whenever [solve(problem, assignment, 1)]
    on the all-unassigned vector returns true, every clause of the problem
    contains a literal whose variable has, in the vector left behind, the
    value of the literal's polarity. *)
Theorem solve_sound (p : SATproblem) (fuel : nat) (a' : list Z) :
  solve fuel p (unassigned_vector p) 1 = Ok (true, a') ->
  forall c, In c (clauses p) -> exists l, In l c /\ sat a' l = true.
Proof.
  intros H. apply solve_true_from_start in H. tauto.
Qed.

(** C5.  Backtracking purity.  Whatever the problem, the assignment vector
    and the start index, a call of [solve] that returns false leaves the
    vector entry for entry as it was before the call. *)
Theorem solve_false_restores (p : SATproblem) (fuel : nat) (a : list Z) (k : Z)
  (a' : list Z) :
  solve fuel p a k = Ok (false, a') -> a' = a.
Proof.
  intros H. apply solve_run in H. now apply (run_false_restores p a k false a').
Qed.

Lemma bind_Ok_eq {A B : Type} (x : A) (k : A -> result B) : bind (Ok x) k = k x.
Proof. reflexivity. Qed.

Lemma show_model_line (r : list Z) :
  forall pre,
    show_model (length r) (size pre) (pre ++ r) = Ok (model_line r (size pre)).
Proof.
  induction r as [|x r IH]; intros pre; simpl; auto.
  rewrite (at_in (pre ++ x :: r) (size pre) 0)
    by (unfold size; rewrite length_app; simpl; lia).
  assert (E : nth (Z.to_nat (size pre)) (pre ++ x :: r) 0 = x).
  { unfold size. rewrite Nat2Z.id. apply nth_middle. }
  rewrite E. unfold bind at 1.
  assert (Es : size (pre ++ [x]) = size pre + 1)
    by (unfold size; rewrite length_app; simpl; lia).
  replace (pre ++ x :: r) with ((pre ++ [x]) ++ r) by (now rewrite <- app_assoc).
  rewrite <- Es, IH. reflexivity.
Qed.

Lemma model_line_print (t : list Z) :
  forall i, model_line t i = print_lits (model_literals t i).
Proof. induction t as [|x t IH]; intros i; simpl; auto. now rewrite IH. Qed.

Lemma model_literals_length (t : list Z) :
  forall i, length (model_literals t i) = length t.
Proof. induction t as [|x t IH]; intros i; simpl; auto. Qed.

Lemma model_literals_nth (t : list Z) :
  forall i n, nth n (model_literals t i) 0 = nth n t 0 * (i + Z.of_nat n + 1).
Proof.
  induction t as [|x t IH]; intros i n; destruct n as [|n]; simpl nth; auto.
  - f_equal. lia.
  - rewrite IH. f_equal. lia.
Qed.

Lemma bind_within_inv {A B : Type} (r : result A) (k : A -> result B) :
  within_fuel (bind r k) -> within_fuel r.
Proof. unfold within_fuel. destruct r; simpl; auto; discriminate. Qed.

(** The result of a call does not depend on the recursion depth allowed,
    once that depth is enough. *)
Lemma solve_fuel_indep (p : SATproblem) :
  forall f1 f2 a k r,
    solve f1 p a k = Ok r -> within_fuel (solve f2 p a k) ->
    solve f2 p a k = Ok r.
Proof.
  induction f1 as [|f1 IH]; intros f2 a k r H Hw; [discriminate|].
  destruct f2 as [|f2]; [exfalso; apply Hw; reflexivity|].
  simpl in H, Hw |- *.
  destruct (checkConflict p a) as [c| | |]; simpl in *; try discriminate.
  destruct c; auto.
  destruct (findUnitClauses p a) as [units| | |]; simpl in *; try discriminate.
  destruct (solve_units p units a []) as [[r0|[a1 saved1]]| | |];
    simpl in *; try discriminate; auto.
  destruct (findPureLiterals p a1) as [pl| | |]; simpl in *; try discriminate.
  destruct (solve_pures pl a1 saved1) as [[a2 saved]| | |];
    simpl in *; try discriminate.
  destruct (k >? numVars p); auto.
  destruct (solve_next (Z.to_nat (numVars p + 1 - k)) (numVars p) a2 k)
    as [nx| | |]; simpl in *; try discriminate.
  destruct (nx >? numVars p); auto.
  destruct (store a2 (nx - 1) 1) as [a3| | |]; simpl in *; try discriminate.
  destruct (int_succ nx) as [n1| | |]; simpl in *; try discriminate.
  destruct (solve f1 p a3 n1) as [[r1 a4]| | |] eqn:E1; simpl in H;
    try discriminate.
  assert (E1' : solve f2 p a3 n1 = Ok (r1, a4))
    by (apply (IH f2 a3 n1 (r1, a4) E1); eapply bind_within_inv; exact Hw).
  rewrite E1' in Hw |- *. simpl in Hw |- *.
  destruct r1; auto.
  destruct (store a4 (nx - 1) (-1)) as [a5| | |]; simpl in *; try discriminate.
  destruct (solve f1 p a5 n1) as [[r2 a6]| | |] eqn:E2; simpl in H;
    try discriminate.
  assert (E2' : solve f2 p a5 n1 = Ok (r2, a6))
    by (apply (IH f2 a5 n1 (r2, a6) E2); eapply bind_within_inv; exact Hw).
  rewrite E2'. simpl. exact H.
Qed.

(** C10.  Success gives a total assignment.  When [solve(problem,
    assignment, 1)] on the all-unassigned vector returns true, the vector
    has one entry per variable and every entry is 1 or -1.  The printing
    loop of [main] then writes, for every variable [i + 1], the number
    [assignment[i] * (i + 1)], which is [i + 1] or [-(i + 1)] and not zero,
    and the [v] line that [main] prints for this problem holds exactly
    these numbers. *)
Theorem solve_true_total (p : SATproblem) (fuel : nat) (a' : list Z) :
  solve fuel p (unassigned_vector p) 1 = Ok (true, a') ->
  size a' = Z.max 0 (numVars p) /\
  Forall (fun x => x = 1 \/ x = -1) a' /\
  exists lits,
    size lits = size a' /\
    (forall i, 0 <= i < numVars p ->
       exists x, at_ a' i = Ok x /\ (x = 1 \/ x = -1) /\
                 nth (Z.to_nat i) lits 0 = x * (i + 1) /\ x * (i + 1) <> 0) /\
    show_model (Z.to_nat (numVars p)) 0 a' = Ok (print_lits lits) /\
    forall heap input,
      parseDIMACS input = Ok p -> 0 < numVars p <= heap ->
      main heap input =
        Ok (mkProcess ["s SATISFIABLE"%string;
                       ("v " ++ print_lits lits ++ "0")%string] [] 0).
Proof.
  intros H. pose proof (solve_true_from_start _ _ _ H) as (Hs & Ht & _).
  split; [exact Hs|]. split; [exact Ht|].
  assert (Hshow : show_model (Z.to_nat (numVars p)) 0 a' =
                  Ok (print_lits (model_literals a' 0))).
  { pose proof (show_model_line a' []) as Hm. simpl in Hm.
    change (size []) with 0 in Hm.
    replace (Z.to_nat (numVars p)) with (length a') by (unfold size in Hs; lia).
    now rewrite Hm, model_line_print. }
  exists (model_literals a' 0). split; [|split; [|split]].
  - unfold size. now rewrite model_literals_length.
  - intros i Hi. exists (nth (Z.to_nat i) a' 0).
    assert (Hx : nth (Z.to_nat i) a' 0 = 1 \/ nth (Z.to_nat i) a' 0 = -1).
    { unfold total in Ht. rewrite Forall_forall in Ht. apply Ht.
      apply nth_In. unfold size in Hs. lia. }
    split; [apply at_in; lia|]. split; [exact Hx|]. split; [|nia].
    rewrite model_literals_nth. f_equal. lia.
  - exact Hshow.
  - intros heap input Hparse Hnv.
    assert (Hrun : solve (S (Z.to_nat (numVars p))) p (unassigned_vector p) 1 =
                   Ok (true, a')).
    { apply (solve_fuel_indep p fuel); auto.
      apply solve_depth_bounded. lia. }
    unfold main, main_try. rewrite Hparse, bind_Ok_eq.
    replace (numVars p <=? 0) with false by (symmetry; apply Z.leb_gt; lia).
    rewrite (gtb_false (numVars p) heap) by lia.
    unfold vector_new.
    replace (numVars p <? 0) with false by (symmetry; apply Z.ltb_ge; lia).
    rewrite bind_Ok_eq.
    change (repeat 0 (Z.to_nat (numVars p))) with (unassigned_vector p).
    rewrite Hrun, bind_Ok_eq. cbv beta iota. rewrite Hshow, bind_Ok_eq.
    reflexivity.
Qed.

(** C9, as amended.  Termination of the driver.  For a problem whose
    literals all lie in [1 .. numVars], with [numVars] below [INT_MAX], and
    an assignment vector of length [numVars], a recursion depth of
    [numVars] calls below the first one is never exceeded, whatever the
    start index: every recursive call is made at [nextVar + 1], above the
    caller's start index.  When the start index is at least 1 the call
    returns. *)
Theorem solve_terminates (p : SATproblem) (a : list Z) (k : Z) (fuel : nat) :
  well_formed p -> numVars p < INT_MAX -> size a = numVars p ->
  (Z.to_nat (numVars p) < fuel)%nat ->
  within_fuel (solve fuel p a k) /\
  (1 <= k -> exists b a', solve fuel p a k = Ok (b, a')).
Proof.
  intros Hwf Hmax Hs Hfuel. split.
  - apply solve_depth_bounded. lia.
  - intros Hk. apply solve_returns; auto. lia.
Qed.

(** C9, as stated, fails: at start index 0 the loop that looks for the next
    unassigned variable reads [assignment[-1]], so the call returns nothing
    whatever the recursion depth allowed. *)
Lemma solve_start_index_zero :
  ~ (forall (p : SATproblem) (a : list Z) (k : Z),
       well_formed p -> size a = numVars p ->
       exists fuel b a', solve fuel p a k = Ok (b, a')).
Proof.
  intros H.
  destruct (H (mkSATproblem 1 []) [0] 0) as (fuel & b & a' & E).
  - intros c [].
  - reflexivity.
  - destruct fuel as [|fuel]; simpl in E; discriminate.
Qed.

(** ** The contracts of the two analyses *)

(** C7.  Unit Propagator contract.  When every literal lies in
    [1 .. length(assignment)], [findUnitClauses] returns, clause by clause
    in order, the forced literal of each clause: the literals [l] that occur
    in a clause with no satisfied literal in which [l] is the only literal
    with an unassigned variable.  A clause with two or more unassigned
    literals contributes nothing, and so does a clause with a satisfied
    literal. *)
Theorem findUnitClauses_contract (p : SATproblem) (a : list Z) :
  lits_in (size a) (clauses p) ->
  findUnitClauses p a = Ok (unit_literals a (clauses p)) /\
  (forall l, In l (unit_literals a (clauses p)) <->
     exists c, In c (clauses p) /\ clause_satisfied a c = false /\
               In l c /\ unassigned a l = true /\
               length (unassigned_lits a c) = 1%nat) /\
  (forall c, (2 <= length (unassigned_lits a c))%nat -> forced_literal a c = []) /\
  (forall c, clause_satisfied a c = true -> forced_literal a c = []).
Proof.
  intros Hr. split; [|split; [|split]].
  - unfold findUnitClauses. rewrite findUnit_clauses_total; auto.
    apply Forall_forall. intros c Hc. apply Forall_forall. intros l Hl.
    apply (Hr c Hc l Hl).
  - intros l. unfold unit_literals. rewrite in_flat_map. split.
    + intros (c & Hc & Hl). apply forced_literal_in in Hl. destruct Hl as [Hs Hu].
      exists c. repeat split; auto.
      * assert (Hin : In l (unassigned_lits a c)) by (rewrite Hu; now left).
        apply filter_In in Hin. tauto.
      * assert (Hin : In l (unassigned_lits a c)) by (rewrite Hu; now left).
        apply filter_In in Hin. tauto.
      * now rewrite Hu.
    + intros (c & Hc & Hs & Hl & Hu & Hlen). exists c. split; auto.
      unfold forced_literal. rewrite Hs.
      assert (Hin : In l (unassigned_lits a c)) by (apply filter_In; auto).
      destruct (unassigned_lits a c) as [|x [|y t]]; simpl in *;
        [contradiction|tauto|discriminate].
  - intros c Hlen. unfold forced_literal.
    destruct (clause_satisfied a c); auto.
    destruct (unassigned_lits a c) as [|x [|y t]]; simpl in *; auto; lia.
  - intros c Hs. unfold forced_literal. now rewrite Hs.
Qed.




(** ** The parser and the process *)

(** On a clause that has a literal the tautology scan stays inside the
    vector. *)
Lemma tautology_loop_total (c : list Z) :
  forall fuel i,
    0 <= i -> size c - 1 - i < Z.of_nat fuel ->
    exists b, tautology_loop fuel c (size c - 1) i = Ok b.
Proof.
  induction fuel as [|fuel IH]; intros i Hi Hf; simpl.
  - replace (i <? size c - 1) with false by (symmetry; apply Z.ltb_ge; lia). eauto.
  - destruct (Z.ltb_spec i (size c - 1)); eauto.
    rewrite (at_in c i 0), (at_in c (i + 1) 0) by lia. simpl.
    destruct (_ =? _); eauto. apply IH; lia.
Qed.

Lemma is_tautology_nonempty (c : list Z) :
  c <> [] -> size c < SIZE_MOD -> exists b, is_tautology c = Ok b.
Proof.
  intros Hc Hs. unfold is_tautology.
  assert (0 < size c) by (destruct c; [contradiction|unfold size; simpl; lia]).
  rewrite Z.mod_small by lia.
  apply tautology_loop_total; unfold size in *; lia.
Qed.

(** An exception in the [try] block ends the process with the error line
    on [cout] and exit status 0. *)
Lemma main_catch (heap : Z) (input what : string) :
  main_try heap input = Throw what ->
  main heap input =
    Ok (mkProcess ["s ERROR"%string] [("Exception: " ++ what)%string] 0).
Proof. unfold main. now intros ->. Qed.

(** C3.  An empty clause is not handled.  On a clause without literals
    [clause.size() - 1] wraps around to [2^64 - 1], the tautology scan reads
    [clause[0]] and [clause[1]] of an empty vector, and neither the parser
    nor the process has a defined outcome: no verdict is printed.  No input
    makes the parser return a problem that holds an empty clause. *)
Theorem parse_empty_clause :
  is_tautology [] = Undefined /\
  parseDIMACS input_empty_clause = Undefined /\
  (forall heap, main heap input_empty_clause = Undefined) /\
  (forall input p, parseDIMACS input = Ok p -> ~ In [] (clauses p)).
Proof.
  assert (E : parseDIMACS input_empty_clause = Undefined) by (vm_compute; reflexivity).
  split; [vm_compute; reflexivity|]. split; [exact E|]. split.
  - intros heap. unfold main, main_try. now rewrite E.
  - intros input p H Hin. apply parseDIMACS_stored in H.
    rewrite Forall_forall in H. destruct (H [] Hin) as (_ & Hne & _).
    now apply Hne.
Qed.

(** C4.  A tautology is stored.  The scan compares neighbours of the list
    sorted by value, so [-2 1 2] is kept although it holds variable 2 in
    both polarities. *)
Theorem parse_split_tautology :
  parseDIMACS input_split_tautology = Ok (mkSATproblem 2 [[-2; 1; 2]]) /\
  exists p c x,
    parseDIMACS input_split_tautology = Ok p /\
    In c (clauses p) /\ In x c /\ In (- x) c.
Proof.
  assert (E : parseDIMACS input_split_tautology = Ok (mkSATproblem 2 [[-2; 1; 2]]))
    by (vm_compute; reflexivity).
  split; auto.
  exists (mkSATproblem 2 [[-2; 1; 2]]), [-2; 1; 2], 2.
  split; auto. simpl. tauto.
Qed.

(** C6.  The exit status after an exception is 0.  When the allocation of
    the assignment vector throws (here the allocator has room for a thousand
    million [int]s), the handler prints the error line and control reaches
    the final [return 0]; the path for [numVars <= 0] prints the same line
    and returns 1. *)
Theorem main_exception_exit_status :
  main 1000000000 input_huge =
    Ok (mkProcess ["s ERROR"%string] ["Exception: std::bad_alloc"%string] 0) /\
  main 1000000000 EmptyString = Ok (mkProcess ["s ERROR"%string] [] 1).
Proof. split; vm_compute; reflexivity. Qed.

(** ** The example scenarios *)

Example scenario_single_unit :
  main 1000 ("p cnf 1 1" ++ nl ++ "1 0" ++ nl) =
    Ok (mkProcess ["s SATISFIABLE"; "v 1 0"]%string [] 0).
Proof. vm_compute. reflexivity. Qed.

Example scenario_unit_conflict :
  main 1000 ("p cnf 1 2" ++ nl ++ "1 0" ++ nl ++ "-1 0" ++ nl) =
    Ok (mkProcess ["s UNSATISFIABLE"%string] [] 0).
Proof. vm_compute. reflexivity. Qed.

Example scenario_pure_literal :
  main 1000 ("p cnf 2 2" ++ nl ++ "1 2 0" ++ nl ++ "-1 2 0" ++ nl) =
    Ok (mkProcess ["s SATISFIABLE"; "v 1 2 0"]%string [] 0).
Proof. vm_compute. reflexivity. Qed.

Example scenario_tautology_dropped :
  parseDIMACS ("p cnf 2 2" ++ nl ++ "1 -1 0" ++ nl ++ "2 0" ++ nl) =
    Ok (mkSATproblem 2 [[2]]) /\
  main 1000 ("p cnf 2 2" ++ nl ++ "1 -1 0" ++ nl ++ "2 0" ++ nl) =
    Ok (mkProcess ["s SATISFIABLE"; "v 1 2 0"]%string [] 0).
Proof. split; vm_compute; reflexivity. Qed.

Example scenario_no_header :
  main 1000 ("c only a comment" ++ nl ++ "1 2 0" ++ nl) =
    Ok (mkProcess ["s ERROR"%string] [] 1).
Proof. vm_compute. reflexivity. Qed.

Example scenario_declared_count_too_small :
  parseDIMACS ("p cnf 1 1" ++ nl ++ "-3 1 1 0" ++ nl) =
    Ok (mkSATproblem 3 [[-3; 1]]).
Proof. vm_compute. reflexivity. Qed.

Example scenario_backtracking :
  solve 4 (mkSATproblem 3 [[1; 2; 3]; [-1; -2]; [-1; -3]; [-2; -3]; [1; 2]])
    [0; 0; 0] 1 = Ok (true, [1; -1; -1]).
Proof. vm_compute. reflexivity. Qed.

(** ** The theorems at concrete inputs *)


Lemma solve_sound_witness :
  solve 3 example_sat (unassigned_vector example_sat) 1 = Ok (true, [1; 1]) /\
  forall c, In c (clauses example_sat) -> exists l, In l c /\ sat [1; 1] l = true.
Proof.
  assert (H : solve 3 example_sat (unassigned_vector example_sat) 1 = Ok (true, [1; 1]))
    by reflexivity.
  split; [exact H|].
  exact (solve_sound example_sat 3 [1; 1] H).
Defined.

Lemma solve_false_restores_witness :
  solve 3 example_unsat [0; 0] 1 = Ok (false, [0; 0]) /\ [0; 0] = [0; 0].
Proof.
  assert (H : solve 3 example_unsat [0; 0] 1 = Ok (false, [0; 0])) by reflexivity.
  split; [exact H|].
  exact (solve_false_restores example_unsat 3 [0; 0] 1 [0; 0] H).
Defined.

Lemma solve_true_total_witness :
  solve 3 example_sat (unassigned_vector example_sat) 1 = Ok (true, [1; 1]) /\
  size [1; 1] = Z.max 0 (numVars example_sat) /\
  Forall (fun x => x = 1 \/ x = -1) [1; 1] /\
  exists lits,
    size lits = size [1; 1] /\
    (forall i, 0 <= i < numVars example_sat ->
       exists x, at_ [1; 1] i = Ok x /\ (x = 1 \/ x = -1) /\
                 nth (Z.to_nat i) lits 0 = x * (i + 1) /\ x * (i + 1) <> 0) /\
    show_model (Z.to_nat (numVars example_sat)) 0 [1; 1] = Ok (print_lits lits) /\
    forall heap input,
      parseDIMACS input = Ok example_sat -> 0 < numVars example_sat <= heap ->
      main heap input =
        Ok (mkProcess ["s SATISFIABLE"%string;
                       ("v " ++ print_lits lits ++ "0")%string] [] 0).
Proof.
  assert (H : solve 3 example_sat (unassigned_vector example_sat) 1 = Ok (true, [1; 1]))
    by reflexivity.
  split; [exact H|].
  exact (solve_true_total example_sat 3 [1; 1] H).
Defined.

Lemma solve_terminates_witness :
  well_formed example_unsat /\ numVars example_unsat < INT_MAX /\
  size [0; 0] = numVars example_unsat /\
  (Z.to_nat (numVars example_unsat) < 3)%nat /\
  within_fuel (solve 3 example_unsat [0; 0] 1) /\
  exists b a', solve 3 example_unsat [0; 0] 1 = Ok (b, a').
Proof.
  assert (H1 : well_formed example_unsat) by (apply well_formedb_ok; reflexivity).
  assert (H0 : numVars example_unsat < INT_MAX) by reflexivity.
  assert (H2 : size [0; 0] = numVars example_unsat) by reflexivity.
  assert (H3 : (Z.to_nat (numVars example_unsat) < 3)%nat) by (simpl; lia).
  assert (H4 : 1 <= 1) by lia.
  split; [exact H1|]. split; [exact H0|]. split; [exact H2|]. split; [exact H3|].
  split.
  - exact (proj1 (solve_terminates example_unsat [0; 0] 1 3 H1 H0 H2 H3)).
  - exact (proj2 (solve_terminates example_unsat [0; 0] 1 3 H1 H0 H2 H3) H4).
Defined.

Lemma findUnitClauses_contract_witness :
  lits_in (size [0; -1; 0]) (clauses example_partial) /\
  findUnitClauses example_partial [0; -1; 0] = Ok [1; -3].
Proof.
  assert (H : lits_in (size [0; -1; 0]) (clauses example_partial))
    by (apply lits_inb_ok; reflexivity).
  split; [exact H|].
  exact (proj1 (findUnitClauses_contract example_partial [0; -1; 0] H)).
Defined.


(** * Further properties of the code *)

(** ** checkConflict *)

Lemma nonzero_lits_Forall (cls : list (list Z)) :
  nonzero_lits cls -> Forall (Forall (fun l => l <> 0)) cls.
Proof.
  intros H. apply Forall_forall. intros c Hc. apply Forall_forall. intros l Hl E.
  subst l. apply (H c Hc Hl).
Qed.

Lemma nonzero_litsb_ok (cls : list (list Z)) :
  nonzero_litsb cls = true -> nonzero_lits cls.
Proof.
  unfold nonzero_litsb. intros H c Hc H0.
  rewrite forallb_forall in H. specialize (H c Hc).
  rewrite forallb_forall in H. specialize (H 0 H0). discriminate.
Qed.



(** X2.  On a vector that gives every variable a value and covers every literal,
    checkConflict is the negation of "every clause has a satisfied
    literal": the test [!checkConflict(...)] at the leaves of the search is
    exact. *)
Theorem checkConflict_decided (p : SATproblem) (a : list Z) :
  lits_in (size a) (clauses p) -> decided a ->
  checkConflict p a = Ok (negb (forallb (clause_satisfied a) (clauses p))).
Proof.
  intros Hr Hd. unfold checkConflict.
  rewrite checkConflict_clauses_total by (eapply lits_in_nonzero; eauto).
  f_equal. unfold conflicting.
  induction (clauses p) as [|c cls IH]; simpl; auto.
  rewrite IH by (intros c' Hc'; apply Hr; now right).
  assert (E : clause_falsified a c = negb (clause_satisfied a c)).
  { assert (Hc : forall l, In l c -> 1 <= Z.abs l <= size a)
      by (intros l Hl; apply (Hr c); [now left|auto]).
    clear IH Hr. unfold clause_falsified, clause_satisfied.
    induction c as [|l c IHc]; simpl; auto.
    rewrite IHc by (intros; apply Hc; now right).
    unfold falsified at 1, unassigned.
    replace (val a (Z.abs l) =? 0) with false
      by (symmetry; apply Z.eqb_neq, Hd, Hc; now left).
    simpl. now rewrite negb_orb. }
  rewrite E. now rewrite negb_andb.
Qed.


(** ** The inference steps of solve *)

Lemma agreesb_ok (m : Z -> bool) (a : list Z) : agreesb m a = true -> agrees m a.
Proof.
  unfold agreesb. intros H v. rewrite forallb_forall in H.
  destruct (Z_le_gt_dec 1 v) as [H1|H1]; [destruct (Z_le_gt_dec v (size a)) as [H2|H2]|].
  - specialize (H v). rewrite vars_in in H. unfold size in H2.
    specialize (H ltac:(lia)). apply andb_true_iff in H. destruct H as [Ha Hb].
    split; intros Hv.
    + replace (0 <? val a v) with true in Ha by (symmetry; apply Z.ltb_lt; lia).
      exact Ha.
    + replace (val a v <? 0) with true in Hb by (symmetry; apply Z.ltb_lt; lia).
      simpl in Hb. now apply negb_true_iff in Hb.
  - rewrite val_outside by lia. lia.
  - rewrite val_outside by lia. lia.
Qed.

Lemma solve_pures_extends (L base : list Z) :
  forall pl a saved a2 saved2,
    incl pl L -> extends_by L base a ->
    solve_pures pl a saved = Ok (a2, saved2) ->
    extends_by L base a2.
Proof.
  induction pl as [|lit pl IH]; simpl; intros a saved a2 saved2 Hi He H.
  - inversion H; subst. auto.
  - assert (Hlit : In lit L) by (apply Hi; now left).
    assert (Hi' : incl pl L) by (intros x Hx; apply Hi; now right).
    inv_bind H. apply at_val in E. destruct E as [Hrange ->].
    destruct (Z.eqb_spec (val a (Z.abs lit)) 0) as [Hv|Hv].
    + inv_bind H. apply store_Ok in E. destruct E as [_ ->].
      apply (IH _ _ _ _ Hi') in H; auto. now apply extends_by_step.
    + apply (IH _ _ _ _ Hi' He H).
Qed.

Lemma pure_step_extends (p : SATproblem) (a pl : list Z) saved a2 saved2 :
  findPureLiterals p a = Ok pl ->
  solve_pures pl a saved = Ok (a2, saved2) ->
  extends_by (pure_literals a (clauses p) (numVars p)) a a2.
Proof.
  intros Hpl Hs. apply findPureLiterals_Ok in Hpl. destruct Hpl as [-> _].
  eapply solve_pures_extends; eauto.
  - apply incl_refl.
  - apply extends_by_refl.
Qed.

(** X4.  Pure-literal safety.  If no clause is falsified, then after the pure
    literals reported by findPureLiterals have been assigned by the loop of
    solve, still no clause is falsified. *)
Theorem pure_literals_safe (p : SATproblem) (a pl : list Z) saved a2 saved2 :
  nonzero_lits (clauses p) ->
  checkConflict p a = Ok false ->
  findPureLiterals p a = Ok pl ->
  solve_pures pl a saved = Ok (a2, saved2) ->
  checkConflict p a2 = Ok false.
Proof.
  intros Hnz Hc Hpl Hs. apply checkConflict_Ok in Hc.
  pose proof (pure_step_extends _ _ _ _ _ _ Hpl Hs) as He.
  unfold checkConflict.
  rewrite checkConflict_clauses_total by (now apply nonzero_lits_Forall).
  f_equal.
  apply (pure_keeps_no_conflict a a2 (pure_literals a (clauses p) (numVars p))); auto.
  intros x Hx. apply pure_literals_in in Hx. tauto.
Qed.

(** X5.  Pure-literal elimination keeps satisfiability.  A model that agrees
    with the assignment and satisfies every clause yields, after the pure
    literals have been assigned, a model that agrees with the new assignment
    and satisfies every clause. *)
Theorem pure_literals_keep_model (p : SATproblem) (a pl : list Z) saved a2 saved2
  (m : Z -> bool) :
  findPureLiterals p a = Ok pl ->
  solve_pures pl a saved = Ok (a2, saved2) ->
  agrees m a -> models m (clauses p) = true ->
  exists m', agrees m' a2 /\ models m' (clauses p) = true.
Proof.
  intros Hpl Hs Ha Hm.
  pose proof (pure_step_extends _ _ _ _ _ _ Hpl Hs) as He.
  exists (override m a2). split; [apply agrees_override|].
  apply (pure_model m a a2 (pure_literals a (clauses p) (numVars p))); auto.
  intros x Hx. apply pure_literals_in in Hx. tauto.
Qed.

(** X6.  Unit literals are forced.  Every literal reported by findUnitClauses is
    true in every model that agrees with the assignment and satisfies every
    clause. *)
Theorem unit_literals_forced (p : SATproblem) (a units : list Z) (m : Z -> bool)
  (l : Z) :
  findUnitClauses p a = Ok units ->
  agrees m a -> models m (clauses p) = true ->
  In l units -> lit_true m l = true.
Proof.
  intros Hu Ha Hm Hl. now apply (unit_forced m p a units).
Qed.

(** ** solve at an arbitrary node of the search *)

Lemma run_size (p : SATproblem) (a : list Z) (k : Z) (b : bool) (a' : list Z) :
  run p a k b a' -> size a' = size a /\ forall v, val a v <> 0 -> val a' v = val a v.
Proof.
  intros R. destruct b.
  - induction R as
      [ | |a k a1 a2 saved Hp Hall
        |a k a1 a2 saved nx a' Hp Hk Hr Hb Hz R1 IH1
        |a k a1 a2 saved nx a4 a' Hp Hk Hr Hb Hz R1 IH1 R2 IH2
        |a k a1 a2 saved nx a4 a6 a' Hp Hk Hr Hb Hz R1 IH1 R2 IH2 Hu ];
      try (split; [reflexivity|auto]).
    + destruct (propagated_grows _ _ _ _ _ Hp) as [Hs Hg]. split; auto.
      intros v Hv. destruct (Hg v) as [E|[E _]]; congruence.
    + destruct (propagated_grows _ _ _ _ _ Hp) as [Hs Hg].
      destruct IH1 as [Hs1 Hk1]. rewrite size_upd in Hs1. split; [congruence|].
      intros v Hv.
      assert (E2 : val a2 v = val a v) by (destruct (Hg v) as [E|[E _]]; congruence).
      assert (Hne : nx <> v) by congruence.
      rewrite Hk1; rewrite val_upd_other by lia; congruence.
    + destruct (propagated_grows _ _ _ _ _ Hp) as [Hs Hg].
      pose proof (run_false_restores _ _ _ _ _ R1 eq_refl) as ->.
      rewrite upd_upd_same in *.
      destruct IH2 as [Hs2 Hk2]. rewrite size_upd in Hs2. split; [congruence|].
      intros v Hv.
      assert (E2 : val a2 v = val a v) by (destruct (Hg v) as [E|[E _]]; congruence).
      assert (Hne : nx <> v) by congruence.
      rewrite Hk2; rewrite val_upd_other by lia; congruence.
    + pose proof (run_false_restores _ _ _ _ _
                    (run_exhausted p a k a1 a2 saved nx a4 a6 a' Hp Hk Hr Hb Hz R1 R2 Hu)
                    eq_refl) as ->.
      auto.
  - rewrite (run_false_restores _ _ _ _ _ R eq_refl). auto.
Qed.

(** X7.  solve never changes a variable that had a value at the call, and never
    changes the length of the vector, whatever it returns. *)
Theorem solve_keeps_assigned (p : SATproblem) (fuel : nat) (a : list Z) (k : Z)
  (b : bool) (a' : list Z) :
  solve fuel p a k = Ok (b, a') ->
  size a' = size a /\ forall v, val a v <> 0 -> val a' v = val a v.
Proof.
  intros H. apply solve_run in H. now apply (run_size p a k b a').
Qed.

(** X8.  Failure is final.  When solve returns false, no assignment of truth
    values that agrees with the variables assigned at the call satisfies
    every clause, whatever the start index. *)
Theorem solve_false_no_model (p : SATproblem) (fuel : nat) (a : list Z) (k : Z)
  (a' : list Z) (m : Z -> bool) :
  solve fuel p a k = Ok (false, a') ->
  agrees m a -> models m (clauses p) = false.
Proof.
  intros H Ha. apply solve_run in H.
  now apply (run_false_complete p a k false a' H eq_refl).
Qed.

(** X9.  solve decides the extension problem.  At a node of the search, where
    every variable below the start index has a value, and with [numVars]
    below [INT_MAX], solve returns, and
    returns true exactly when some assignment of truth values agrees with
    the vector and satisfies every clause; the vector it leaves behind is
    then such an assignment. *)
Theorem solve_decides_extension (p : SATproblem) (fuel : nat) (a : list Z) (k : Z) :
  well_formed p -> numVars p < INT_MAX -> size a = numVars p -> 1 <= k ->
  (forall v, 1 <= v < k -> val a v <> 0) ->
  (Z.to_nat (numVars p) < fuel)%nat ->
  exists b a',
    solve fuel p a k = Ok (b, a') /\
    (b = true <-> exists m, agrees m a /\ models m (clauses p) = true) /\
    (b = true -> decided a' /\ satisfies a' p /\
                 forall v, val a v <> 0 -> val a' v = val a v).
Proof.
  intros Hwf Hmax Hs Hk Hlow Hfuel. pose proof (size_nonneg a) as Hnn.
  destruct (solve_returns p Hwf Hmax fuel a k Hs Hk) as (b & a' & H); [lia|].
  exists b, a'. split; auto.
  pose proof (solve_run _ _ _ _ _ _ H) as R.
  pose proof (run_size _ _ _ _ _ R) as [Hsz Hkeep].
  assert (Htrue : b = true -> decided a' /\ satisfies a' p).
  { intros ->.
    destruct (run_true_sound _ _ _ _ _ R eq_refl) as (_ & Hnz & _ & Hsat); auto.
    { lia. }
    split.
    - intros v Hv. apply Hnz. lia.
    - intros c Hc. apply clause_satisfied_iff. auto. }
  split; [split|].
  - intros Hb. destruct (Htrue Hb) as [Hd Hsat].
    exists (fun v => val a' v >? 0). split; [|now apply satisfies_models].
    intros v. split; intros Hv.
    + rewrite Hkeep by lia. apply gtb_true. lia.
    + rewrite Hkeep by lia. apply gtb_false. lia.
  - intros (m & Ha & Hm). destruct b; auto.
    rewrite (run_false_complete _ _ _ _ _ R eq_refl m Ha) in Hm. discriminate.
  - intros Hb. destruct (Htrue Hb). auto.
Qed.

(** ** The reader of the parser *)

Lemma extract_int_range (iss iss' : istream) (v : Z) :
  extract_int iss = (iss', Some v) -> INT_MIN <= v <= INT_MAX.
Proof.
  unfold extract_int. destruct (good iss); [|discriminate].
  destruct (skip_ws (buf iss)) as [|c rest]; [discriminate|].
  destruct (if Ascii.eqb c "-" then (true, rest)
            else if Ascii.eqb c "+" then (false, rest)
                 else (false, String c rest)) as [negative body].
  destruct (read_digits body 0 false) as [[magnitude seen] rest'].
  destruct seen.
  - destruct (Z.gtb_spec (if negative then - magnitude else magnitude) INT_MAX)
      as [Hg|Hg].
    + intros Hx; inversion Hx; subst. unfold INT_MIN, INT_MAX. lia.
    + destruct (Z.ltb_spec (if negative then - magnitude else magnitude) INT_MIN)
        as [Hl|Hl];
        intros Hx; inversion Hx; subst; unfold INT_MIN, INT_MAX in *; lia.
  - intros Hx; inversion Hx; subst. unfold INT_MIN, INT_MAX. lia.
Qed.

(** What the clause reader returns: the literals it appends are nonzero,
    fit in [int] with their negation, and are covered by the variable count
    it returns, which never decreases. *)
Lemma read_clause_Ok (fuel : nat) :
  forall iss nv clause nv' raw,
    read_clause fuel iss nv clause = Ok (nv', raw) ->
    nv <= nv' <= Z.max nv INT_MAX /\
    exists new, raw = clause ++ new /\
      forall l, In l new -> l <> 0 /\ Z.abs l <= nv' /\ - INT_MAX <= l <= INT_MAX.
Proof.
  induction fuel as [|fuel IH]; intros iss nv clause nv' raw H; simpl in H.
  - destruct (extract_int iss) as [iss' [lit|]] eqn:E.
    + destruct (good iss' && negb (lit =? 0)).
      * destruct (lit =? INT_MIN); discriminate.
      * inversion H; subst. split; [lia|]. exists []. rewrite app_nil_r.
        split; auto. intros l [].
    + inversion H; subst. split; [lia|]. exists []. rewrite app_nil_r.
      split; auto. intros l [].
  - destruct (extract_int iss) as [iss' [lit|]] eqn:E.
    + destruct (good iss' && negb (lit =? 0)) eqn:Eg.
      * destruct (Z.eqb_spec lit INT_MIN) as [Hmin|Hmin]; [discriminate|].
        apply andb_true_iff in Eg. destruct Eg as [_ Hnz].
        apply negb_true_iff, Z.eqb_neq in Hnz.
        apply extract_int_range in E.
        apply IH in H. destruct H as (Hnv & new & -> & Hnew).
        assert (Habs : Z.abs lit <= INT_MAX) by (unfold INT_MIN, INT_MAX in *; lia).
        destruct (Z.gtb_spec (Z.abs lit) nv) as [Hgt|Hle].
        -- split; [lia|]. exists (lit :: new). rewrite <- app_assoc. split; auto.
           intros l [<-|Hl]; auto. repeat split; auto; unfold INT_MIN, INT_MAX in *; lia.
        -- split; [lia|]. exists (lit :: new). rewrite <- app_assoc. split; auto.
           intros l [<-|Hl]; auto. repeat split; auto; unfold INT_MIN, INT_MAX in *; lia.
      * inversion H; subst. split; [lia|]. exists []. rewrite app_nil_r.
        split; auto. intros l [].
    + inversion H; subst. split; [lia|]. exists []. rewrite app_nil_r.
      split; auto. intros l [].
Qed.

Lemma insert_sorted_in_iff (x : Z) (l : list Z) (y : Z) :
  In y (insert_sorted x l) <-> y = x \/ In y l.
Proof.
  split; [apply insert_sorted_in|].
  induction l as [|h t IH]; simpl.
  - intros [->|[]]. auto.
  - destruct (x <=? h); simpl; intros [->|[->|H]]; auto.
Qed.

Lemma sort_in_iff (l : list Z) (y : Z) : In y (sort l) <-> In y l.
Proof.
  induction l as [|x t IH]; simpl; [tauto|].
  rewrite insert_sorted_in_iff, IH. split; intros [H|H]; auto.
Qed.

Lemma unique_in_iff (l : list Z) (y : Z) : In y (unique l) <-> In y l.
Proof.
  split; [apply unique_in|].
  induction l as [|x t IH]; [auto|].
  destruct t as [|z t'].
  - auto.
  - change (unique (x :: z :: t')) with
      (if x =? z then unique (z :: t') else x :: unique (z :: t')).
    destruct (Z.eqb_spec x z) as [->|Hne].
    + intros [->|H]; apply IH; auto. now left.
    + intros [->|H]; [now left|right; auto].
Qed.

(** X10.  Sorting and removing duplicates keeps exactly the literals that were
    read. *)
Theorem dedup_same_literals (raw : list Z) (l : Z) :
  In l (unique (sort raw)) <-> In l raw.
Proof. now rewrite unique_in_iff, sort_in_iff. Qed.

Lemma sort_sorted_id (c : list Z) : StronglySorted Z.le c -> sort c = c.
Proof.
  induction 1 as [|x t Ht IH Hx]; simpl; auto.
  rewrite IH. destruct t as [|y t']; simpl; auto.
  inversion Hx; subst. now replace (x <=? y) with true by (symmetry; apply Z.leb_le; lia).
Qed.

Lemma unique_strict_id (c : list Z) : StronglySorted Z.lt c -> unique c = c.
Proof.
  induction 1 as [|x t Ht IH Hx]; auto.
  destruct t as [|y t']; auto.
  change (unique (x :: y :: t')) with
    (if x =? y then unique (y :: t') else x :: unique (y :: t')).
  inversion Hx; subst.
  replace (x =? y) with false by (symmetry; apply Z.eqb_neq; lia).
  now rewrite IH.
Qed.

(** X11.  Cleaning is idempotent: on a strictly increasing clause, as the parser
    stores them, sorting and removing duplicates change nothing. *)
Theorem dedup_idempotent (c : list Z) :
  StronglySorted Z.lt c -> unique (sort c) = c.
Proof.
  intros H. rewrite sort_sorted_id.
  - now apply unique_strict_id.
  - clear -H. induction H as [|x t Ht IH Hx]; constructor; auto.
    eapply Forall_impl; [|exact Hx]. intros; lia.
Qed.

Lemma tautology_loop_true (c : list Z) (bound : Z) :
  forall fuel i,
    0 <= i -> tautology_loop fuel c bound i = Ok true ->
    exists x, In x c /\ In (- x) c.
Proof.
  induction fuel as [|fuel IH]; simpl; intros i Hi H.
  - destruct (i <? bound); discriminate.
  - destruct (i <? bound); [|discriminate].
    inv_bind H. inv_bind H.
    apply (at_Ok _ _ _ 0) in E, E0. destruct E as [Hr ->], E0 as [Hr' ->].
    destruct (Z.eqb_spec (nth (Z.to_nat i) c 0) (- nth (Z.to_nat (i + 1)) c 0))
      as [Heq|Hne].
    + exists (nth (Z.to_nat (i + 1)) c 0). split.
      * apply nth_In. unfold size in Hr'. lia.
      * rewrite <- Heq. apply nth_In. unfold size in Hr. lia.
    + apply (IH (i + 1)); auto. lia.
Qed.

(** X12.  Only genuine tautologies are discarded.  A clause the scan reports
    holds some literal together with its negation; if it does not hold the
    literal 0, every assignment of truth values satisfies it. *)
Theorem is_tautology_sound (c : list Z) :
  is_tautology c = Ok true ->
  (exists x, In x c /\ In (- x) c) /\
  (~ In 0 c -> forall m, existsb (lit_true m) c = true).
Proof.
  intros H. unfold is_tautology in H.
  apply tautology_loop_true in H; [|lia].
  split; auto. intros Hnz m. destruct H as (x & Hx & Hx').
  assert (Hx0 : x <> 0) by (intros ->; auto).
  destruct (m (Z.abs x)) eqn:Em.
  - apply existsb_exists.
    destruct (Z_lt_le_dec 0 x).
    + exists x. split; auto. unfold lit_true. now rewrite gtb_true by lia.
    + exists (- x). split; auto. unfold lit_true. rewrite gtb_true by lia.
      now replace (Z.abs (- x)) with (Z.abs x) by lia.
  - apply existsb_exists.
    destruct (Z_lt_le_dec 0 x).
    + exists (- x). split; auto. unfold lit_true. rewrite gtb_false by lia.
      replace (Z.abs (- x)) with (Z.abs x) by lia. now rewrite Em.
    + exists x. split; auto. unfold lit_true. rewrite gtb_false by lia.
      now rewrite Em.
Qed.

(** ** The lines of the input *)

Lemma parse_line_skipped (st : parser) (line : string) :
  is_skipped line = true -> parse_line st line = Ok st.
Proof.
  destruct line as [|c rest]; simpl; auto. now intros ->.
Qed.

Lemma parse_line_before_header (st : parser) (line : string) :
  headerFound st = false -> is_header line = false -> parse_line st line = Ok st.
Proof.
  destruct line as [|c rest]; simpl; auto. intros Hh Hp.
  destruct (Ascii.eqb c "c"); auto. now rewrite Hp, Hh.
Qed.

Lemma parse_line_header (st : parser) (line : string) :
  is_header line = true ->
  exists nv,
    parse_line st line = Ok (mkParser (mkSATproblem nv (clauses (problem_of st))) true) /\
    (nv = numVars (problem_of st) \/ INT_MIN <= nv <= INT_MAX).
Proof.
  destruct line as [|c rest]; simpl; [discriminate|]. intros Hp.
  apply Ascii.eqb_eq in Hp. subst c. simpl.
  destruct (extract_int _) as [iss' [v|]] eqn:E.
  - exists v. split; auto. right. now apply extract_int_range in E.
  - exists (numVars (problem_of st)). auto.
Qed.

Lemma parse_line_clause (st st' : parser) (line : string) :
  headerFound st = true -> is_header line = false -> is_skipped line = false ->
  parse_line st line = Ok st' ->
  headerFound st' = true /\
  numVars (problem_of st) <= numVars (problem_of st')
    <= Z.max (numVars (problem_of st)) INT_MAX /\
  (clauses (problem_of st') = clauses (problem_of st) \/
   exists c, clauses (problem_of st') = clauses (problem_of st) ++ [c] /\
     forall l, In l c ->
       l <> 0 /\ Z.abs l <= numVars (problem_of st') /\ - INT_MAX <= l <= INT_MAX).
Proof.
  intros Hh Hp Hc H.
  destruct line as [|c rest]; [discriminate|]. simpl in Hp, Hc.
  unfold parse_line in H. rewrite Hc, Hp, Hh in H.
  change (negb true) with false in H. cbv beta iota in H.
  inv_bind H. destruct x as [nv raw]. apply read_clause_Ok in E.
  destruct E as (Hnv & new & Hraw & Hnew). simpl in Hraw. subst raw.
  inv_bind H. destruct x; simpl in H; inversion H; subst; simpl.
  - split; auto.
  - split; auto. split; auto. right. eexists. split; [reflexivity|].
    intros l Hl. rewrite unique_in_iff, sort_in_iff in Hl.
    apply (Hnew l Hl).
Qed.

(** X14.  Empty lines and lines that start with [c] are ignored wherever they
    stand. *)
Theorem comments_ignored (lines : list string) :
  forall st,
    parse_lines (filter (fun line => negb (is_skipped line)) lines) st =
    parse_lines lines st.
Proof.
  induction lines as [|line lines IH]; intros st; simpl; auto.
  destruct (is_skipped line) eqn:E; simpl.
  - rewrite parse_line_skipped by auto. simpl. apply IH.
  - destruct (parse_line st line); simpl; auto.
Qed.

Lemma parse_lines_preamble (pre rest : list string) :
  (forall line, In line pre -> is_header line = false) ->
  parse_lines (pre ++ rest) (mkParser (mkSATproblem 0 []) false) =
  parse_lines rest (mkParser (mkSATproblem 0 []) false).
Proof.
  induction pre as [|line pre IH]; intros H; simpl; auto.
  rewrite parse_line_before_header by (auto; apply H; now left).
  simpl. apply IH. intros l Hl. apply H. now right.
Qed.

(** X15.  Whatever precedes the first line that starts with [p] is ignored. *)
Theorem preamble_ignored (pre rest : list string) :
  (forall line, In line pre -> is_header line = false) ->
  parse_lines (pre ++ rest) (mkParser (mkSATproblem 0 []) false) =
  parse_lines rest (mkParser (mkSATproblem 0 []) false).
Proof. exact (parse_lines_preamble pre rest). Qed.

(** X16.  Without a line that starts with [p] the program prints the error line
    and exits with status 1, whatever else the input holds. *)
Theorem main_no_header (heap : Z) (input : string) :
  (forall line, In line (getlines input) -> is_header line = false) ->
  main heap input = Ok (mkProcess ["s ERROR"%string] [] 1).
Proof.
  intros H. unfold main, main_try, parseDIMACS.
  pose proof (parse_lines_preamble (getlines input) [] H) as E.
  rewrite app_nil_r in E. rewrite E. reflexivity.
Qed.

(** The invariant of the reading loop when at most one header is left. *)
Lemma parse_lines_single_header (lines : list string) :
  forall st st',
    (headerFound st = true ->
     forall line, In line lines -> is_header line = false) ->
    (headerFound st = false ->
     clauses (problem_of st) = [] /\
     (length (filter is_header lines) <= 1)%nat) ->
    well_formed (problem_of st) ->
    parse_lines lines st = Ok st' ->
    well_formed (problem_of st').
Proof.
  induction lines as [|line lines IH]; simpl; intros st st' Hfound Hnot Hwf H.
  - inversion H; subst; auto.
  - inv_bind H. rename x into st1.
    destruct (is_header line) eqn:Ehead.
    + (* the header *)
      destruct (headerFound st) eqn:Eh.
      { rewrite (Hfound eq_refl line (or_introl eq_refl)) in Ehead. discriminate. }
      destruct (Hnot eq_refl) as [Hcl Hcount]. simpl in Hcount.
      destruct (parse_line_header st line Ehead) as (nv & E1 & _).
      rewrite E1 in E. inversion E; subst st1. clear E.
      apply (IH (mkParser (mkSATproblem nv (clauses (problem_of st))) true) st');
        simpl; auto.
      * intros _ l Hl.
        destruct (is_header l) eqn:El; auto.
        assert (In l (filter is_header lines)) by (apply filter_In; auto).
        destruct (filter is_header lines); [contradiction|simpl in Hcount; lia].
      * discriminate.
      * rewrite Hcl. intros c [].
    + destruct (headerFound st) eqn:Eh.
      * (* after the header *)
        assert (Hrest : forall l, In l lines -> is_header l = false)
          by (intros l Hl; apply Hfound; auto).
        destruct (is_skipped line) eqn:Es.
        { rewrite parse_line_skipped in E by auto. inversion E; subst st1.
          apply (IH st st'); auto. rewrite Eh. discriminate. }
        destruct (parse_line_clause st st1 line Eh Ehead Es E) as (Hf1 & Hnv & Hcl).
        apply (IH st1 st'); auto.
        -- rewrite Hf1. discriminate.
        -- destruct Hcl as [Hcl|(c & Hcl & Hc)]; unfold well_formed; rewrite Hcl.
           ++ intros c' Hc' l Hl. specialize (Hwf c' Hc' l Hl). lia.
           ++ intros c' Hc' l Hl. apply in_app_or in Hc'.
              destruct Hc' as [Hc'|[<-|[]]].
              ** specialize (Hwf c' Hc' l Hl). lia.
              ** specialize (Hc l Hl). lia.
      * (* before the header *)
        rewrite parse_line_before_header in E by auto. inversion E; subst st1.
        apply (IH st st'); auto.
        rewrite Eh. discriminate.
Qed.

(** X17.  With at most one header line the parser returns a problem that keeps
    the Problem Model invariant: every stored literal [l] has
    [1 <= |l| <= numVars], the declared count being raised where a literal
    exceeds it. *)
Theorem parse_single_header (input : string) (p : SATproblem) :
  (length (filter is_header (getlines input)) <= 1)%nat ->
  parseDIMACS input = Ok p -> well_formed p.
Proof.
  intros Hcount H. unfold parseDIMACS in H. inv_bind H. inversion H; subst.
  apply (parse_lines_single_header (getlines input)
           (mkParser (mkSATproblem 0 []) false) x); auto.
  - simpl. discriminate.
  - intros c [].
Qed.

(** X19.  Whatever the input, every clause the parser returns is strictly
    increasing, so it holds no literal twice, and it is not empty. *)
Theorem parse_stores_increasing (input : string) (p : SATproblem) :
  parseDIMACS input = Ok p ->
  forall c, In c (clauses p) -> StronglySorted Z.lt c /\ NoDup c /\ c <> [].
Proof.
  intros H c Hc. apply parseDIMACS_stored in H.
  rewrite Forall_forall in H. destruct (H c Hc) as (Hs & Hne & _).
  repeat split; auto. now apply strictly_sorted_NoDup.
Qed.

(** ** The verdict of main *)

(** X20.  The verdict is right.  When the parser returns a problem that keeps the
    Problem Model invariant, with a variable count below [INT_MAX], and the
    assignment vector can be allocated, the
    process exits with status 0 and prints either [s SATISFIABLE] followed
    by the [v] line of a total assignment that satisfies every clause, or
    [s UNSATISFIABLE] when no total assignment does. *)
Theorem main_verdict (heap : Z) (input : string) (p : SATproblem) :
  parseDIMACS input = Ok p -> well_formed p -> 0 < numVars p <= heap ->
  numVars p < INT_MAX ->
  (exists t,
     size t = numVars p /\ total t /\ satisfies t p /\
     main heap input =
       Ok (mkProcess ["s SATISFIABLE"; "v " ++ model_line t 0 ++ "0"]%string [] 0))
  \/
  (~ satisfiable p /\
   main heap input = Ok (mkProcess ["s UNSATISFIABLE"%string] [] 0)).
Proof.
  intros Hparse Hwf Hnv Hmax.
  destruct (solve_returns p Hwf Hmax (S (Z.to_nat (numVars p)))
              (unassigned_vector p) 1) as (b & a' & H); try lia.
  { rewrite size_unassigned_vector. lia. }
  assert (Etry : main_try heap input =
                 if b then
                   model <- show_model (Z.to_nat (numVars p)) 0 a' ;;
                   Ok (["s SATISFIABLE"; "v " ++ model ++ "0"]%string, None)
                 else Ok (["s UNSATISFIABLE"%string], None)).
  { unfold main_try. rewrite Hparse, bind_Ok_eq.
    replace (numVars p <=? 0) with false by (symmetry; apply Z.leb_gt; lia).
    rewrite (gtb_false (numVars p) heap) by lia.
    unfold vector_new.
    replace (numVars p <? 0) with false by (symmetry; apply Z.ltb_ge; lia).
    rewrite bind_Ok_eq.
    change (repeat 0 (Z.to_nat (numVars p))) with (unassigned_vector p).
    rewrite H, bind_Ok_eq. reflexivity. }
  unfold main. rewrite Etry. clear Etry.
  destruct b.
  - left. apply solve_true_from_start in H. destruct H as (Hs & Ht & Hsat).
    exists a'. repeat split; auto; try lia.
    pose proof (show_model_line a' []) as Hm. simpl in Hm.
    replace (Z.to_nat (numVars p)) with (length a') by (unfold size in Hs; lia).
    change (size []) with 0 in Hm. rewrite Hm, bind_Ok_eq. reflexivity.
  - right. split; auto. intros (t & _ & _ & Hsat).
    apply solve_run in H.
    pose proof (run_false_complete _ _ _ _ _ H eq_refl (fun v => val t v >? 0)) as Hm.
    rewrite satisfies_models in Hm by auto.
    assert (Hd : true = false) by (apply Hm; intros v; unfold unassigned_vector;
                                   rewrite val_repeat_zero; lia).
    discriminate.
Qed.

(** ** Printing and reading back *)

Lemma read_digits_uint (d : uint) :
  forall acc seen rest,
    no_digit_head rest = true ->
    read_digits (NilEmpty.string_of_uint d ++ rest) acc seen =
      (uint_value d acc,
       match d with Nil => seen | _ => true end,
       rest).
Proof.
  induction d; intros acc seen rest Hrest; simpl;
    try (rewrite IHd by auto; destruct d; reflexivity).
  destruct rest as [|c rest']; simpl; auto.
  simpl in Hrest. destruct (digit_of c); [discriminate|reflexivity].
Qed.

Lemma uint_value_acc (d : uint) :
  forall acc, uint_value d (Z.pos acc) = Z.pos (Pos.of_uint_acc d acc).
Proof.
  induction d; intros acc; cbn [uint_value Pos.of_uint_acc]; auto;
    rewrite <- IHd; f_equal; lia.
Qed.

Lemma uint_value_of_uint (d : uint) : uint_value d 0 = Z.of_N (Pos.of_uint d).
Proof.
  induction d; cbn [uint_value Pos.of_uint]; auto;
    change (Z.of_N (N.pos ?q)) with (Z.pos q);
    rewrite <- uint_value_acc; f_equal.
Qed.

Lemma uint_value_to_uint (q : positive) : uint_value (Pos.to_uint q) 0 = Z.pos q.
Proof. now rewrite uint_value_of_uint, DecimalPos.Unsigned.of_to. Qed.

Lemma string_of_uint_head (d : uint) :
  d <> Nil ->
  exists c s, NilEmpty.string_of_uint d = String c s /\
              is_space c = false /\ Ascii.eqb c "-" = false /\
              Ascii.eqb c "+" = false.
Proof.
  destruct d; intros H; try contradiction; simpl; eexists; eexists;
    (split; [reflexivity|]); repeat split; reflexivity.
Qed.

Lemma extract_int_digits (d : uint) (rest : string) :
  d <> Nil -> 0 <= uint_value d 0 <= INT_MAX -> no_digit_head rest = true ->
  extract_int (mkIstream (NilEmpty.string_of_uint d ++ rest) true) =
    (mkIstream rest true, Some (uint_value d 0)).
Proof.
  intros Hnil Hv Hrest.
  destruct (string_of_uint_head d Hnil) as (c & s & Es & H1 & H2 & H3).
  unfold extract_int. cbn [good buf]. rewrite Es at 1. cbn [append skip_ws].
  rewrite H1, H2, H3.
  change (String c (s ++ rest)) with (String c s ++ rest)%string.
  rewrite <- Es, read_digits_uint by auto.
  rewrite (gtb_false (uint_value d 0) INT_MAX) by lia.
  replace (uint_value d 0 <? INT_MIN) with false
    by (symmetry; apply Z.ltb_ge; unfold INT_MIN; lia).
  destruct d; try contradiction; reflexivity.
Qed.

Lemma extract_int_minus_digits (d : uint) (rest : string) :
  d <> Nil -> 0 <= uint_value d 0 <= - INT_MIN -> no_digit_head rest = true ->
  extract_int (mkIstream (String "-" (NilEmpty.string_of_uint d ++ rest)) true) =
    (mkIstream rest true, Some (- uint_value d 0)).
Proof.
  intros Hnil Hv Hrest.
  unfold extract_int. cbn [good buf].
  change (skip_ws (String "-" (NilEmpty.string_of_uint d ++ rest)))
    with (String "-" (NilEmpty.string_of_uint d ++ rest)).
  cbv beta iota. rewrite Ascii.eqb_refl. cbv beta iota.
  rewrite read_digits_uint by auto.
  rewrite (gtb_false (- uint_value d 0) INT_MAX) by (unfold INT_MAX; lia).
  replace (- uint_value d 0 <? INT_MIN) with false
    by (symmetry; apply Z.ltb_ge; lia).
  destruct d; try contradiction; reflexivity.
Qed.

Lemma extract_int_printed (z : Z) (rest : string) :
  INT_MIN <= z <= INT_MAX -> no_digit_head rest = true ->
  extract_int (mkIstream (show_int z ++ rest) true) = (mkIstream rest true, Some z).
Proof.
  intros Hz Hrest. unfold show_int.
  destruct z as [|q|q]; cbn [Z.to_int NilZero.string_of_int].
  - change (NilZero.string_of_uint zero) with (NilEmpty.string_of_uint (D0 Nil)).
    rewrite extract_int_digits; auto; [discriminate|cbn; unfold INT_MAX; lia].
  - pose proof (DecimalPos.Unsigned.to_uint_nonnil q) as Hnil.
    replace (NilZero.string_of_uint (Pos.to_uint q))
      with (NilEmpty.string_of_uint (Pos.to_uint q))
      by (destruct (Pos.to_uint q); auto; contradiction).
    rewrite extract_int_digits; auto; rewrite uint_value_to_uint; auto; lia.
  - pose proof (DecimalPos.Unsigned.to_uint_nonnil q) as Hnil.
    replace (NilZero.string_of_uint (Pos.to_uint q))
      with (NilEmpty.string_of_uint (Pos.to_uint q))
      by (destruct (Pos.to_uint q); auto; contradiction).
    cbn [append].
    rewrite extract_int_minus_digits; auto; rewrite uint_value_to_uint; auto;
      unfold INT_MIN in *; lia.
Qed.

(** X21.  Reading back a printed number.  The reader applied to the decimal text
    of an [int], followed by something that is not a digit, stores that
    [int] and leaves the stream good at what follows. *)
Theorem extract_int_show_int (z : Z) (rest : string) :
  INT_MIN <= z <= INT_MAX -> no_digit_head rest = true ->
  extract_int (mkIstream (show_int z ++ rest) true) = (mkIstream rest true, Some z).
Proof. exact (extract_int_printed z rest). Qed.

Lemma string_append_assoc (a b c : string) :
  ((a ++ b) ++ c = a ++ (b ++ c))%string.
Proof. induction a as [|ch a IH]; simpl; auto. now rewrite IH. Qed.

Lemma string_length_append (a b : string) :
  String.length (a ++ b) = (String.length a + String.length b)%nat.
Proof. induction a as [|ch a IH]; simpl; auto. Qed.

Lemma model_line_length (t : list Z) :
  forall i, (length t <= String.length (model_line t i))%nat.
Proof.
  induction t as [|x t IH]; intros i; simpl; [lia|].
  rewrite string_length_append. simpl. specialize (IH (i + 1)). lia.
Qed.

Lemma extract_int_space (s : string) :
  extract_int (mkIstream (String " " s) true) = extract_int (mkIstream s true).
Proof. reflexivity. Qed.

Lemma read_clause_space (fuel : nat) (s : string) (nv : Z) (acc : list Z) :
  read_clause fuel (mkIstream (String " " s) true) nv acc =
  read_clause fuel (mkIstream s true) nv acc.
Proof. destruct fuel; cbn [read_clause]; now rewrite extract_int_space. Qed.

Lemma read_clause_model_line (t : list Z) :
  forall fuel i nv acc,
    0 <= i -> i + size t <= nv -> i + size t <= INT_MAX -> total t ->
    (length t <= fuel)%nat ->
    read_clause fuel (mkIstream (model_line t i ++ "0") true) nv acc =
      Ok (nv, acc ++ model_literals t i).
Proof.
  induction t as [|x t IH]; intros fuel i nv acc Hi Hnv Hmax Ht Hfuel.
  - cbn [model_line model_literals append]. rewrite app_nil_r.
    assert (E : extract_int (mkIstream "0" true) = (mkIstream "" true, Some 0))
      by reflexivity.
    destruct fuel; cbn [read_clause]; rewrite E; reflexivity.
  - inversion Ht as [|? ? Hx Ht']; subst.
    assert (Hsz : size (x :: t) = size t + 1) by (unfold size; simpl length; lia).
    pose proof (size_nonneg t) as Hnn.
    cbn [model_line model_literals].
    rewrite !string_append_assoc.
    destruct fuel as [|fuel]; [simpl in Hfuel; lia|].
    cbn [read_clause].
    rewrite extract_int_printed;
      [|unfold INT_MIN, INT_MAX in *; destruct Hx; subst; lia|reflexivity].
    cbn [good andb].
    replace (x * (i + 1) =? 0) with false
      by (symmetry; apply Z.eqb_neq; destruct Hx; subst; lia).
    cbn [negb].
    replace (x * (i + 1) =? INT_MIN) with false
      by (symmetry; apply Z.eqb_neq; unfold INT_MIN, INT_MAX in *;
          destruct Hx; subst; lia).
    rewrite (gtb_false (Z.abs (x * (i + 1))) nv) by (destruct Hx; subst; lia).
    cbn [append]. rewrite read_clause_space.
    rewrite IH; auto; try lia.
    + now rewrite <- app_assoc.
    + simpl in Hfuel. lia.
Qed.

(** X22.  Printing and reading round trip.  The text that the printing loop
    of main writes for a total vector, followed by the final [0] (what
    main prints after the prefix ["v "]), read by the clause reader of the
    parser under a variable count that covers the vector, gives back the
    literal [i] or [-i] of every variable [i] in order and leaves the count
    as it was.  The printed line with its prefix is no clause line: the
    reader stops at [v] without a literal. *)
Theorem model_line_read_back (t : list Z) (nv : Z) :
  total t -> size t <= nv -> size t <= INT_MAX ->
  exists model,
    show_model (length t) 0 t = Ok model /\
    read_clause (String.length (model ++ "0"))
      (mkIstream (model ++ "0") true) nv [] =
      Ok (nv, model_literals t 0) /\
    forall fuel,
      read_clause fuel (mkIstream ("v " ++ model ++ "0") true) nv [] =
        Ok (nv, []).
Proof.
  intros Ht Hnv Hmax. exists (model_line t 0). split; [|split].
  - exact (show_model_line t []).
  - rewrite (read_clause_model_line t _ 0 nv []); auto; try lia.
    rewrite string_length_append. pose proof (model_line_length t 0). lia.
  - intros fuel. destruct fuel; reflexivity.
Qed.

(** ** The largest variable count *)

Example scenario_largest_count :
  parseDIMACS ("p cnf 2147483647 0" ++ nl) = Ok (mkSATproblem INT_MAX []).
Proof. vm_compute. reflexivity. Qed.

(** X23.  At [numVars = INT_MAX], a count the parser accepts, the search
    computes [numVars + 1], which is no [int]: [findPureLiterals] has no
    defined result, so [solve] can only return from the conflict tests that
    precede it, with false; on a problem without clauses it returns
    nothing, and neither does the process when it can allocate the
    assignment vector. *)
Theorem search_int_max (p : SATproblem) :
  numVars p = INT_MAX ->
  (forall a, findPureLiterals p a = Undefined) /\
  (forall fuel a k b a', solve fuel p a k = Ok (b, a') -> b = false) /\
  (clauses p = [] ->
   (forall fuel a k, solve (S fuel) p a k = Undefined) /\
   (forall heap input,
      parseDIMACS input = Ok p -> INT_MAX <= heap -> main heap input = Undefined)).
Proof.
  intros Hn.
  assert (Hpure : forall a, findPureLiterals p a = Undefined).
  { intros a. unfold findPureLiterals, int_succ. rewrite Hn.
    rewrite Z.ltb_irrefl. reflexivity. }
  split; [exact Hpure|]. split.
  - intros fuel a k b a' H. destruct fuel as [|fuel]; [discriminate|].
    simpl in H. inv_bind H. destruct x.
    { now inversion H. }
    inv_bind H. inv_bind H. destruct x0 as [r|[a1 saved1]].
    { now inversion H. }
    rewrite Hpure in H. discriminate.
  - intros Hc.
    assert (Hsolve : forall fuel a k, solve (S fuel) p a k = Undefined).
    { intros fuel a k. simpl. unfold checkConflict, findUnitClauses.
      rewrite Hc. simpl. rewrite Hpure. reflexivity. }
    split; [exact Hsolve|].
    intros heap input Hparse Hheap. unfold main, main_try.
    rewrite Hparse, bind_Ok_eq.
    replace (numVars p <=? 0) with false
      by (symmetry; apply Z.leb_gt; rewrite Hn; reflexivity).
    rewrite (gtb_false (numVars p) heap) by (rewrite Hn; exact Hheap).
    unfold vector_new.
    replace (numVars p <? 0) with false
      by (symmetry; apply Z.ltb_ge; rewrite Hn; discriminate).
    rewrite bind_Ok_eq, Hsolve. reflexivity.
Qed.

(** ** Which tautologies the scan finds *)

Lemma sorted_nth_lt (c : list Z) :
  StronglySorted Z.lt c ->
  forall k1 k2, (k1 < k2 < length c)%nat -> nth k1 c 0 < nth k2 c 0.
Proof.
  induction 1 as [|x t Ht IH Hx]; intros k1 k2 Hk; simpl in Hk; [lia|].
  destruct k2 as [|k2]; [lia|]. destruct k1 as [|k1]; simpl.
  - rewrite Forall_forall in Hx. apply Hx. apply nth_In. lia.
  - apply IH. lia.
Qed.

Lemma tautology_loop_true_at (c : list Z) (bound : Z) :
  forall fuel i,
    tautology_loop fuel c bound i = Ok true ->
    exists j, i <= j < bound /\
              nth (Z.to_nat j) c 0 = - nth (Z.to_nat (j + 1)) c 0.
Proof.
  induction fuel as [|fuel IH]; simpl; intros i H.
  - destruct (i <? bound); discriminate.
  - destruct (Z.ltb_spec i bound); [|discriminate].
    inv_bind H. inv_bind H.
    apply (at_Ok _ _ _ 0) in E, E0. destruct E as [Hr ->], E0 as [Hr' ->].
    destruct (Z.eqb_spec (nth (Z.to_nat i) c 0) (- nth (Z.to_nat (i + 1)) c 0))
      as [Heq|Hne].
    + exists i. split; auto. lia.
    + destruct (IH _ H) as (j & Hj & Hp). exists j. split; auto. lia.
Qed.

(** X13.  Exactly which clauses are discarded.  On a strictly increasing clause
    (as sorting and deduplication leave it) that is not empty, the scan
    reports a tautology exactly when the clause holds some [x > 0] and [-x]
    with no literal strictly between them, that is, when [|x|] is the
    smallest magnitude in the clause. *)
Theorem is_tautology_exact (c : list Z) :
  StronglySorted Z.lt c -> c <> [] -> size c < SIZE_MOD ->
  exists b,
    is_tautology c = Ok b /\
    (b = true <->
     exists x, 0 < x /\ In x c /\ In (- x) c /\
               forall y, In y c -> ~ (- x < y < x)).
Proof.
  intros Hs Hne Hsz. unfold is_tautology.
  assert (Hpos : 0 < size c) by (destruct c; [contradiction|unfold size; simpl; lia]).
  rewrite Z.mod_small by lia.
  destruct (tautology_loop_total c (S (length c)) 0) as [b Hb];
    [lia|unfold size; lia|].
  exists b. split; auto.
  assert (Hmono : forall k1 k2, 0 <= k1 < k2 -> k2 < size c ->
                   nth (Z.to_nat k1) c 0 < nth (Z.to_nat k2) c 0).
  { intros k1 k2 H1 H2. apply sorted_nth_lt; auto. unfold size in H2. lia. }
  split.
  - intros ->. apply tautology_loop_true_at in Hb. destruct Hb as (j & Hj & Hp).
    exists (nth (Z.to_nat (j + 1)) c 0).
    pose proof (Hmono j (j + 1) ltac:(lia) ltac:(lia)) as Hlt.
    split; [lia|]. split; [apply nth_In; unfold size in *; lia|].
    split; [rewrite <- Hp; apply nth_In; unfold size in *; lia|].
    intros y Hy [Hy1 Hy2].
    destruct (In_nth c y 0 Hy) as (k & Hk & <-).
    destruct (Z_le_gt_dec (Z.of_nat k) j) as [Hle|Hgt].
    + destruct (Z.eq_dec (Z.of_nat k) j) as [<-|Hne'].
      * rewrite Nat2Z.id in Hp. lia.
      * pose proof (Hmono (Z.of_nat k) j ltac:(lia) ltac:(lia)) as Hm.
        rewrite Nat2Z.id in Hm. lia.
    + destruct (Z.eq_dec (Z.of_nat k) (j + 1)) as [E|Hne'].
      * rewrite <- E, Nat2Z.id in Hy2. lia.
      * pose proof (Hmono (j + 1) (Z.of_nat k) ltac:(lia)
                      ltac:(unfold size; lia)) as Hm.
        rewrite Nat2Z.id in Hm. lia.
  - intros (x & Hx & Hin & Hin' & Hbetween).
    destruct b; auto. exfalso.
    destruct (In_nth c x 0 Hin) as (k & Hk & Ek).
    destruct (In_nth c (- x) 0 Hin') as (j & Hj & Ej).
    assert (Hjk : (j < k)%nat).
    { destruct (Nat.lt_trichotomy j k) as [H|[H|H]]; auto.
      - subst. lia.
      - pose proof (sorted_nth_lt c Hs k j ltac:(lia)). lia. }
    assert (Hadj : k = S j).
    { destruct (Nat.eq_dec k (S j)); auto. exfalso.
      apply (Hbetween (nth (S j) c 0)); [apply nth_In; lia|].
      pose proof (sorted_nth_lt c Hs j (S j) ltac:(lia)).
      pose proof (sorted_nth_lt c Hs (S j) k ltac:(lia)). lia. }
    apply (tautology_loop_false c (size c - 1) _ _ Hb (Z.of_nat j)).
    + unfold size. lia.
    + rewrite Nat2Z.id.
      replace (Z.to_nat (Z.of_nat j + 1)) with (S j) by lia.
      subst k. lia.
Qed.

(** ** The further properties at concrete inputs *)

Lemma decidedb_ok (a : list Z) : decidedb a = true -> decided a.
Proof.
  unfold decidedb. intros H v Hv. rewrite forallb_forall in H.
  unfold val. replace (1 <=? v) with true by (symmetry; apply Z.leb_le; lia).
  assert (Hin : In (nth (Z.to_nat (v - 1)) a 0) a)
    by (apply nth_In; unfold size in Hv; lia).
  specialize (H _ Hin). apply negb_true_iff in H. now apply Z.eqb_neq.
Qed.

Lemma no_header_ok (lines : list string) :
  forallb (fun line => negb (is_header line)) lines = true ->
  forall line, In line lines -> is_header line = false.
Proof.
  intros H line Hl. rewrite forallb_forall in H. specialize (H line Hl).
  now apply negb_true_iff.
Qed.


Lemma checkConflict_decided_witness :
  lits_in (size [1; 1]) (clauses example_sat) /\ decided [1; 1] /\
  checkConflict example_sat [1; 1] = Ok false.
Proof.
  assert (H1 : lits_in (size [1; 1]) (clauses example_sat))
    by (apply lits_inb_ok; reflexivity).
  assert (H2 : decided [1; 1]) by (apply decidedb_ok; reflexivity).
  split; [exact H1|]. split; [exact H2|].
  exact (checkConflict_decided example_sat [1; 1] H1 H2).
Defined.


Lemma pure_literals_safe_witness :
  nonzero_lits (clauses example_sat) /\
  checkConflict example_sat [0; 0] = Ok false /\
  findPureLiterals example_sat [0; 0] = Ok [2] /\
  solve_pures [2] [0; 0] [] = Ok ([0; 1], [(1, 0)]) /\
  checkConflict example_sat [0; 1] = Ok false.
Proof.
  assert (H1 : nonzero_lits (clauses example_sat))
    by (apply nonzero_litsb_ok; reflexivity).
  assert (H2 : checkConflict example_sat [0; 0] = Ok false) by reflexivity.
  assert (H3 : findPureLiterals example_sat [0; 0] = Ok [2]) by reflexivity.
  assert (H4 : solve_pures [2] [0; 0] [] = Ok ([0; 1], [(1, 0)])) by reflexivity.
  split; [exact H1|]. split; [exact H2|]. split; [exact H3|]. split; [exact H4|].
  exact (pure_literals_safe example_sat [0; 0] [2] [] [0; 1] [(1, 0)] H1 H2 H3 H4).
Defined.

Lemma pure_literals_keep_model_witness :
  findPureLiterals example_sat [0; 0] = Ok [2] /\
  solve_pures [2] [0; 0] [] = Ok ([0; 1], [(1, 0)]) /\
  agrees (fun _ => true) [0; 0] /\
  models (fun _ => true) (clauses example_sat) = true /\
  exists m', agrees m' [0; 1] /\ models m' (clauses example_sat) = true.
Proof.
  assert (H1 : findPureLiterals example_sat [0; 0] = Ok [2]) by reflexivity.
  assert (H2 : solve_pures [2] [0; 0] [] = Ok ([0; 1], [(1, 0)])) by reflexivity.
  assert (H3 : agrees (fun _ => true) [0; 0]) by (apply agreesb_ok; reflexivity).
  assert (H4 : models (fun _ => true) (clauses example_sat) = true) by reflexivity.
  split; [exact H1|]. split; [exact H2|]. split; [exact H3|]. split; [exact H4|].
  exact (pure_literals_keep_model example_sat [0; 0] [2] [] [0; 1] [(1, 0)]
           (fun _ => true) H1 H2 H3 H4).
Defined.

Lemma unit_literals_forced_witness :
  findUnitClauses example_sat [-1; 0] = Ok [2] /\
  agrees (fun v => v =? 2) [-1; 0] /\
  models (fun v => v =? 2) (clauses example_sat) = true /\
  In 2 [2] /\
  lit_true (fun v => v =? 2) 2 = true.
Proof.
  assert (H1 : findUnitClauses example_sat [-1; 0] = Ok [2]) by reflexivity.
  assert (H2 : agrees (fun v => v =? 2) [-1; 0]) by (apply agreesb_ok; reflexivity).
  assert (H3 : models (fun v => v =? 2) (clauses example_sat) = true) by reflexivity.
  assert (H4 : In 2 [2]) by (simpl; auto).
  split; [exact H1|]. split; [exact H2|]. split; [exact H3|]. split; [exact H4|].
  exact (unit_literals_forced example_sat [-1; 0] [2] (fun v => v =? 2) 2 H1 H2 H3 H4).
Defined.

Lemma solve_keeps_assigned_witness :
  solve 3 example_sat [-1; 0] 1 = Ok (true, [-1; 1]) /\
  size [-1; 1] = size [-1; 0] /\
  forall v, val [-1; 0] v <> 0 -> val [-1; 1] v = val [-1; 0] v.
Proof.
  assert (H : solve 3 example_sat [-1; 0] 1 = Ok (true, [-1; 1])) by reflexivity.
  split; [exact H|].
  exact (solve_keeps_assigned example_sat 3 [-1; 0] 1 true [-1; 1] H).
Defined.

Lemma solve_false_no_model_witness :
  solve 3 example_unsat [0; 0] 1 = Ok (false, [0; 0]) /\
  agrees (fun _ => true) [0; 0] /\
  models (fun _ => true) (clauses example_unsat) = false.
Proof.
  assert (H1 : solve 3 example_unsat [0; 0] 1 = Ok (false, [0; 0])) by reflexivity.
  assert (H2 : agrees (fun _ => true) [0; 0]) by (apply agreesb_ok; reflexivity).
  split; [exact H1|]. split; [exact H2|].
  exact (solve_false_no_model example_unsat 3 [0; 0] 1 [0; 0] (fun _ => true) H1 H2).
Defined.

Lemma solve_decides_extension_witness :
  well_formed example_sat /\ numVars example_sat < INT_MAX /\
  size [-1; 0] = numVars example_sat /\ 1 <= 2 /\
  (forall v, 1 <= v < 2 -> val [-1; 0] v <> 0) /\
  (Z.to_nat (numVars example_sat) < 3)%nat /\
  exists b a',
    solve 3 example_sat [-1; 0] 2 = Ok (b, a') /\
    (b = true <-> exists m, agrees m [-1; 0] /\ models m (clauses example_sat) = true) /\
    (b = true -> decided a' /\ satisfies a' example_sat /\
                 forall v, val [-1; 0] v <> 0 -> val a' v = val [-1; 0] v).
Proof.
  assert (H1 : well_formed example_sat) by (apply well_formedb_ok; reflexivity).
  assert (H2 : size [-1; 0] = numVars example_sat) by reflexivity.
  assert (H3 : 1 <= 2) by lia.
  assert (H4 : forall v, 1 <= v < 2 -> val [-1; 0] v <> 0).
  { intros v Hv. assert (v = 1) by lia. subst v. discriminate. }
  assert (H5 : (Z.to_nat (numVars example_sat) < 3)%nat) by (simpl; lia).
  assert (H0 : numVars example_sat < INT_MAX) by reflexivity.
  split; [exact H1|]. split; [exact H0|]. split; [exact H2|]. split; [exact H3|].
  split; [exact H4|]. split; [exact H5|].
  exact (solve_decides_extension example_sat 3 [-1; 0] 2 H1 H0 H2 H3 H4 H5).
Defined.

Lemma dedup_idempotent_witness :
  StronglySorted Z.lt [-2; 1; 2] /\ unique (sort [-2; 1; 2]) = [-2; 1; 2].
Proof.
  assert (H : StronglySorted Z.lt [-2; 1; 2]) by (repeat constructor).
  split; [exact H|]. exact (dedup_idempotent [-2; 1; 2] H).
Defined.

Lemma is_tautology_sound_witness :
  is_tautology [-1; 1] = Ok true /\
  (exists x, In x [-1; 1] /\ In (- x) [-1; 1]) /\
  (~ In 0 [-1; 1] -> forall m, existsb (lit_true m) [-1; 1] = true).
Proof.
  assert (H : is_tautology [-1; 1] = Ok true) by (vm_compute; reflexivity).
  split; [exact H|]. exact (is_tautology_sound [-1; 1] H).
Defined.

Lemma is_tautology_exact_witness :
  StronglySorted Z.lt [-2; 1; 2] /\ [-2; 1; 2] <> [] /\ size [-2; 1; 2] < SIZE_MOD /\
  exists b,
    is_tautology [-2; 1; 2] = Ok b /\
    (b = true <->
     exists x, 0 < x /\ In x [-2; 1; 2] /\ In (- x) [-2; 1; 2] /\
               forall y, In y [-2; 1; 2] -> ~ (- x < y < x)).
Proof.
  assert (H1 : StronglySorted Z.lt [-2; 1; 2]) by (repeat constructor).
  assert (H2 : [-2; 1; 2] <> []) by discriminate.
  assert (H3 : size [-2; 1; 2] < SIZE_MOD) by reflexivity.
  split; [exact H1|]. split; [exact H2|]. split; [exact H3|].
  exact (is_tautology_exact [-2; 1; 2] H1 H2 H3).
Defined.

Lemma preamble_ignored_witness :
  (forall line, In line ["c a comment"%string; "1 2 0"%string] -> is_header line = false) /\
  parse_lines (["c a comment"%string; "1 2 0"%string] ++ ["p cnf 1 1"%string; "1 0"%string])
    (mkParser (mkSATproblem 0 []) false) =
  parse_lines ["p cnf 1 1"%string; "1 0"%string] (mkParser (mkSATproblem 0 []) false).
Proof.
  assert (H : forall line, In line ["c a comment"%string; "1 2 0"%string] ->
                           is_header line = false)
    by (apply no_header_ok; reflexivity).
  split; [exact H|].
  exact (preamble_ignored ["c a comment"%string; "1 2 0"%string]
           ["p cnf 1 1"%string; "1 0"%string] H).
Defined.

Lemma main_no_header_witness :
  (forall line, In line (getlines input_no_header) -> is_header line = false) /\
  main 1000 input_no_header = Ok (mkProcess ["s ERROR"%string] [] 1).
Proof.
  assert (H : forall line, In line (getlines input_no_header) ->
                           is_header line = false)
    by (apply no_header_ok; reflexivity).
  split; [exact H|]. exact (main_no_header 1000 input_no_header H).
Defined.

Lemma parse_single_header_witness :
  (length (filter is_header (getlines input_preamble)) <= 1)%nat /\
  parseDIMACS input_preamble = Ok example_sat /\
  well_formed example_sat.
Proof.
  assert (H1 : (length (filter is_header (getlines input_preamble)) <= 1)%nat)
    by (apply Nat.leb_le; reflexivity).
  assert (H2 : parseDIMACS input_preamble = Ok example_sat)
    by (vm_compute; reflexivity).
  split; [exact H1|]. split; [exact H2|].
  exact (parse_single_header input_preamble example_sat H1 H2).
Defined.

Lemma parse_stores_increasing_witness :
  parseDIMACS input_split_tautology = Ok (mkSATproblem 2 [[-2; 1; 2]]) /\
  forall c, In c [[-2; 1; 2]] -> StronglySorted Z.lt c /\ NoDup c /\ c <> [].
Proof.
  assert (H : parseDIMACS input_split_tautology = Ok (mkSATproblem 2 [[-2; 1; 2]]))
    by (vm_compute; reflexivity).
  split; [exact H|].
  exact (parse_stores_increasing input_split_tautology
           (mkSATproblem 2 [[-2; 1; 2]]) H).
Defined.

Lemma main_verdict_witness :
  parseDIMACS input_preamble = Ok example_sat /\ well_formed example_sat /\
  0 < numVars example_sat <= 1000 /\ numVars example_sat < INT_MAX /\
  ((exists t,
      size t = numVars example_sat /\ total t /\ satisfies t example_sat /\
      main 1000 input_preamble =
        Ok (mkProcess ["s SATISFIABLE"%string; ("v " ++ model_line t 0 ++ "0")%string] [] 0))
   \/
   (~ satisfiable example_sat /\
    main 1000 input_preamble = Ok (mkProcess ["s UNSATISFIABLE"%string] [] 0))).
Proof.
  assert (H1 : parseDIMACS input_preamble = Ok example_sat)
    by (vm_compute; reflexivity).
  assert (H2 : well_formed example_sat) by (apply well_formedb_ok; reflexivity).
  assert (H3 : 0 < numVars example_sat <= 1000) by (simpl; lia).
  assert (H4 : numVars example_sat < INT_MAX) by reflexivity.
  split; [exact H1|]. split; [exact H2|]. split; [exact H3|]. split; [exact H4|].
  exact (main_verdict 1000 input_preamble example_sat H1 H2 H3 H4).
Defined.

Lemma extract_int_show_int_witness :
  INT_MIN <= -42 <= INT_MAX /\ no_digit_head " 7" = true /\
  extract_int (mkIstream (show_int (-42) ++ " 7") true) =
    (mkIstream " 7" true, Some (-42)).
Proof.
  assert (H1 : INT_MIN <= -42 <= INT_MAX) by (unfold INT_MIN, INT_MAX; lia).
  assert (H2 : no_digit_head " 7" = true) by reflexivity.
  split; [exact H1|]. split; [exact H2|].
  exact (extract_int_show_int (-42) " 7" H1 H2).
Defined.

Lemma model_line_read_back_witness :
  total [1; -1; 1] /\ size [1; -1; 1] <= 3 /\ size [1; -1; 1] <= INT_MAX /\
  exists model,
    show_model (length [1; -1; 1]) 0 [1; -1; 1] = Ok model /\
    read_clause (String.length (model ++ "0"))
      (mkIstream (model ++ "0") true) 3 [] =
      Ok (3, [1; -2; 3]) /\
    forall fuel,
      read_clause fuel (mkIstream ("v " ++ model ++ "0") true) 3 [] =
        Ok (3, []).
Proof.
  assert (H1 : total [1; -1; 1]) by (repeat constructor; auto).
  assert (H2 : size [1; -1; 1] <= 3) by (unfold size; simpl; lia).
  assert (H3 : size [1; -1; 1] <= INT_MAX) by (unfold size, INT_MAX; simpl; lia).
  split; [exact H1|]. split; [exact H2|]. split; [exact H3|].
  exact (model_line_read_back [1; -1; 1] 3 H1 H2 H3).
Defined.

Lemma search_int_max_witness :
  numVars (mkSATproblem INT_MAX []) = INT_MAX /\
  (forall a, findPureLiterals (mkSATproblem INT_MAX []) a = Undefined) /\
  (forall fuel a k b a',
     solve fuel (mkSATproblem INT_MAX []) a k = Ok (b, a') -> b = false) /\
  (clauses (mkSATproblem INT_MAX []) = [] ->
   (forall fuel a k, solve (S fuel) (mkSATproblem INT_MAX []) a k = Undefined) /\
   (forall heap input,
      parseDIMACS input = Ok (mkSATproblem INT_MAX []) -> INT_MAX <= heap ->
      main heap input = Undefined)).
Proof.
  assert (H : numVars (mkSATproblem INT_MAX []) = INT_MAX) by reflexivity.
  split; [exact H|]. exact (search_int_max (mkSATproblem INT_MAX []) H).
Defined.
